(** * disk-ringbuffer: the page-level append log

    A shallow embedding of the page code of the repository, in its two
    variants:

    - [Part000]: src/unnamed/part_000 compiled against src/src/page.h
      (three header words, [QUEUE_SIZE = 4096 * 16000], [READ_ERROR = -1]);
    - [PageC]: the self-contained src/src/page.c
      (a fourth, never accessed header word [last_idx],
      [QUEUE_SIZE = 4096 * 32000], [READ_ERROR = -12]).

    [CONSTANT_TIME_READ] is not defined in either file, so
    [raw_qpage_push] and [raw_qpage_pop] are their [#else] branches.

    Conventions.
    - [size_t] is the 64-bit unsigned word of an LP64 target: a [Z] taken
      modulo [2 ^ 64] after every arithmetic operation ([wrap]).
    - An [unsigned char] is a [byte]; the arena [buf] is a map from offsets
      to bytes, and every access [p->buf[i]] checks [0 <= i < QUEUE_SIZE]:
      an access outside the array is undefined behaviour ([Undefined]).
    - The calls are run one after the other (no other thread changes the
      page during a call), so an atomic read-modify-write is a read followed
      by a write, and every load of a spin loop sees the same word.  A spin
      loop gets a number of iterations ([fuel]); [Spinning] is the outcome
      of a loop that has not left after that many.
    - [QUEUE_SIZE] is a macro: the functions take it as a parameter, the
      values of the two files are [page_h_QUEUE_SIZE] and
      [page_c_QUEUE_SIZE]. *)

From Stdlib Require Import ZArith List Lia Bool.
From Stdlib Require Import Strings.Byte.
Import ListNotations.
Local Open Scope Z_scope.

(** ** Results of a call *)

Inductive outcome (A : Type) : Type :=
| Ret (a : A)
| Undefined
| Spinning.

Arguments Ret {A} a.
Arguments Undefined {A}.
Arguments Spinning {A}.

Definition bind {A B : Type} (m : outcome A) (k : A -> outcome B) : outcome B :=
  match m with
  | Ret a => k a
  | Undefined => Undefined
  | Spinning => Spinning
  end.

Notation "'let*' x ':=' m 'in' k" := (bind m (fun x => k))
  (at level 10, x pattern, m at level 100, k at level 200).

(** ** [size_t] and [int] arithmetic *)

Definition sizeof_size_t : Z := 8.

Definition size_t_modulus : Z := 2 ^ (sizeof_size_t * 8).

Definition wrap (x : Z) : Z := x mod size_t_modulus.

Definition size_t_range (x : Z) : Prop := 0 <= x < size_t_modulus.

(** Conversion of a [size_t] to [int] (the return type of the push
    functions): the low 32 bits, read as two's complement. *)
Definition to_int (x : Z) : Z := (x + 2 ^ 31) mod 2 ^ 32 - 2 ^ 31.

(** [~x] on a [size_t]. *)
Definition bitnot (x : Z) : Z := wrap (Z.lnot x).

(** [!x]: an [int], 1 when [x] is zero and 0 otherwise. *)
Definition lognot (x : Z) : Z := if x =? 0 then 1 else 0.

(** ** Constants shared by page.h and page.c *)

Definition VALUE_TERM_BYTE : byte := xff.

(** [(size_t)0b1 << ((sizeof(size_t) * 8) - 8)] *)
Definition QUEUE_MAGIC_NUM : Z := wrap (Z.shiftl 1 (sizeof_size_t * 8 - 8)).

(** [QUEUE_MAGIC_NUM - 1] *)
Definition QUEUE_MAGIC_MASK : Z := wrap (QUEUE_MAGIC_NUM - 1).

Definition READ_SUCCESS : Z := 0.
Definition READ_FINISHED : Z := 1.
Definition READ_EMPTY : Z := 2.
Definition WRITE_PAGE_FULL : Z := 0.

Definition page_h_QUEUE_SIZE : Z := 4096 * 16000.
Definition page_c_QUEUE_SIZE : Z := 4096 * 32000.

(** The two fields of the state word. *)
Definition write_index (state : Z) : Z := Z.land state QUEUE_MAGIC_MASK.

Definition writer_count (state : Z) : Z := Z.shiftr state (sizeof_size_t * 8 - 8).

(** ** The structures *)

(** [CSlice].  [ptr] is [None] for the null pointer and [Some i] for
    [&p->buf[i]]. *)
Record CSlice : Type := mkCSlice {
  len : Z;
  ptr : option Z;
  read_status : Z
}.

(** The local [CSlice cs;] of the pop functions before any store to it.
    Every path of [raw_qpage_pop] stores the three fields before it returns,
    so the value chosen here is never seen. *)
Definition unset_CSlice : CSlice := mkCSlice 0 None 0.

(** [RawQPage].  page.c declares one more header word, [last_idx], which no
    function reads or writes; it is left out. *)
Record RawQPage : Type := mkRawQPage {
  is_ready : Z;
  write_idx_lock : Z;
  last_safe_write_idx : Z;
  buf : Z -> byte
}.

(** The page [raw_qpage_new] maps from a file it has just created:
    [ftruncate] fills it with zeros. *)
Definition fresh_page : RawQPage :=
  mkRawQPage 0 0 0 (fun _ => x00).

Definition set_write_idx_lock (p : RawQPage) (v : Z) : RawQPage :=
  mkRawQPage (is_ready p) v (last_safe_write_idx p) (buf p).

Definition set_last_safe_write_idx (p : RawQPage) (v : Z) : RawQPage :=
  mkRawQPage (is_ready p) (write_idx_lock p) v (buf p).

Definition set_buf (p : RawQPage) (b : Z -> byte) : RawQPage :=
  mkRawQPage (is_ready p) (write_idx_lock p) (last_safe_write_idx p) b.

(** ** Memory and atomics *)

Definition upd (b : Z -> byte) (i : Z) (v : byte) : Z -> byte :=
  fun j => if j =? i then v else b j.

Fixpoint write_bytes (b : Z -> byte) (dst : Z) (src : list byte) : Z -> byte :=
  match src with
  | [] => b
  | x :: src' => write_bytes (upd b dst x) (dst + 1) src'
  end.

Fixpoint read_bytes (b : Z -> byte) (from : Z) (n : nat) : list byte :=
  match n with
  | O => []
  | S n' => b from :: read_bytes b (from + 1) n'
  end.

(** The bytes a returned slice points to. *)
Definition slice_bytes (p : RawQPage) (cs : CSlice) : list byte :=
  match ptr cs with
  | Some i => read_bytes (buf p) i (Z.to_nat (len cs))
  | None => []
  end.

(** [atomic_fetch_add_explicit(&p->write_idx_lock, d, _)]: the prior value
    and the page after it. *)
Definition atomic_fetch_add_write_idx_lock (p : RawQPage) (d : Z) : Z * RawQPage :=
  (write_idx_lock p, set_write_idx_lock p (wrap (write_idx_lock p + d))).

(** [atomic_fetch_sub_explicit(&p->write_idx_lock, d, _)], result dropped. *)
Definition atomic_fetch_sub_write_idx_lock (p : RawQPage) (d : Z) : RawQPage :=
  set_write_idx_lock p (wrap (write_idx_lock p - d)).

(** The object representation of a [size_t]: [sizeof_size_t] bytes, least
    significant first (a little-endian target, as x86-64). *)
Definition byte_of_Z (x : Z) : byte :=
  match Byte.of_N (Z.to_N (x mod 256)) with
  | Some b => b
  | None => x00
  end.

Definition Z_of_byte (b : byte) : Z := Z.of_N (Byte.to_N b).

Fixpoint le_bytes (n : nat) (x : Z) : list byte :=
  match n with
  | O => []
  | S n' => byte_of_Z x :: le_bytes n' (x / 256)
  end.

Fixpoint le_value (bs : list byte) : Z :=
  match bs with
  | [] => 0
  | b :: bs' => Z_of_byte b + 256 * le_value bs'
  end.

Section Arena.

Variable QUEUE_SIZE : Z.

Definition in_buf (i : Z) : bool := (0 <=? i) && (i <? QUEUE_SIZE).

(** [p->buf[i]] read. *)
Definition buf_load (p : RawQPage) (i : Z) : outcome byte :=
  if in_buf i then Ret (buf p i) else Undefined.

(** [p->buf[i] = v]. *)
Definition buf_store (p : RawQPage) (i : Z) (v : byte) : outcome RawQPage :=
  if in_buf i then Ret (set_buf p (upd (buf p) i v)) else Undefined.

(** [memcpy(&p->buf[dst], src, n)], where [src] is the memory the caller's
    pointer gives access to: defined when [src] has [n] bytes and the
    destination range lies in the array. *)
Definition memcpy_buf (p : RawQPage) (dst : Z) (src : list byte) (n : Z)
  : outcome RawQPage :=
  if (n <=? Z.of_nat (length src)) && (0 <=? dst) && (dst + n <=? QUEUE_SIZE)
  then Ret (set_buf p (write_bytes (buf p) dst (firstn (Z.to_nat n) src)))
  else Undefined.

(** The read of a [size_t] through the address of [p->buf[i]]: the word
    made of the [sizeof_size_t] bytes from offset [i], all of which have
    to lie in the array. *)
Definition load_size_t (p : RawQPage) (i : Z) : outcome Z :=
  if (0 <=? i) && (i + sizeof_size_t <=? QUEUE_SIZE)
  then Ret (le_value (read_bytes (buf p) i (Z.to_nat sizeof_size_t)))
  else Undefined.

End Arena.

(** ** src/unnamed/part_000 (with src/src/page.h) *)

Module Part000.

Definition READ_ERROR : Z := -1.

Section Page.

(** [QUEUE_SIZE] is a positive [int] constant (the size of the array
    [buf]); where the source compares it with a [size_t] its conversion
    is the identity. *)
Variable QUEUE_SIZE : Z.

Definition raw_qpage_push (p : RawQPage) (buf : list byte) (len : Z)
  : outcome (Z * RawQPage) :=
  let '(start, p) :=
    atomic_fetch_add_write_idx_lock p
      (wrap (wrap (QUEUE_MAGIC_NUM + len) + 1)) in
  let start := Z.land start QUEUE_MAGIC_MASK in
  if wrap (start + len) >=? QUEUE_SIZE - 1 then
    let* p := (if start <=? QUEUE_SIZE - 1
               then buf_store QUEUE_SIZE p start xfd
               else Ret p) in
    let p := atomic_fetch_sub_write_idx_lock p QUEUE_MAGIC_NUM in
    Ret (WRITE_PAGE_FULL, p)
  else
    let* p := memcpy_buf QUEUE_SIZE p start buf len in
    let* p := buf_store QUEUE_SIZE p (wrap (start + len)) VALUE_TERM_BYTE in
    let p := atomic_fetch_sub_write_idx_lock p QUEUE_MAGIC_NUM in
    Ret (to_int (wrap (len + 1)), p).

(** The test that leaves the [while (1)] of [_get_write_idx_spin]:
    [(end & ~QUEUE_MAGIC_MASK) == 0]. *)
Definition spin_exit (end_ : Z) : bool :=
  Z.land end_ (bitnot QUEUE_MAGIC_MASK) =? 0.

(** The [while (1)] of [_get_write_idx_spin]: the word loaded by the
    iteration that breaks. *)
Fixpoint spin (fuel : nat) (p : RawQPage) : outcome Z :=
  match fuel with
  | O => Spinning
  | S fuel' =>
      let end_ := write_idx_lock p in
      if spin_exit end_ then Ret end_ else spin fuel' p
  end.

Definition _get_write_idx_spin (fuel : nat) (p : RawQPage) (start_byte : Z)
  : outcome (Z * RawQPage) :=
  let end_ := last_safe_write_idx p in
  let* (end_, p) :=
    (if end_ <=? start_byte then
       let* end_ := spin fuel p in
       Ret (end_, set_last_safe_write_idx p end_)
     else Ret (end_, p)) in
  let end_ := if QUEUE_SIZE <? end_ then QUEUE_SIZE else end_ in
  Ret (end_, p).

(** The test that leaves the [while (1)] of [raw_qpage_pop_fast_read]:
    [(end & !QUEUE_MAGIC_MASK) == 0]. *)
Definition fast_read_spin_exit (end_ : Z) : bool :=
  Z.land end_ (lognot QUEUE_MAGIC_MASK) =? 0.

Fixpoint fast_read_spin (fuel : nat) (p : RawQPage) : outcome Z :=
  match fuel with
  | O => Spinning
  | S fuel' =>
      let end_ := write_idx_lock p in
      if fast_read_spin_exit end_ then Ret end_ else fast_read_spin fuel' p
  end.

(** [raw_qpage_pop_fast_read] up to the clamp of [end]: the value of
    [end] and the page at that point.  (The slice the function then
    builds does not use [end].) *)
Definition raw_qpage_pop_fast_read_end (fuel : nat) (p : RawQPage)
  (start_byte : Z) : outcome (Z * RawQPage) :=
  let end_ := last_safe_write_idx p in
  let* (end_, p) :=
    (if end_ <=? start_byte then
       let* end_ := fast_read_spin fuel p in
       Ret (end_, set_last_safe_write_idx p end_)
     else Ret (end_, p)) in
  let end_ := if QUEUE_SIZE <? end_ then QUEUE_SIZE else end_ in
  Ret (end_, p).

(** [for (i = start_byte; i < end; i++) if (p->buf[i] == VALUE_TERM_BYTE)
    break;] run for at most [n] iterations; the value of [i] after it.
    [raw_qpage_pop] gives it [end - start_byte] iterations, all it can
    take. *)
Fixpoint scan (n : nat) (p : RawQPage) (i end_ : Z) : outcome Z :=
  match n with
  | O => Ret i
  | S n' =>
      if i <? end_ then
        let* b := buf_load QUEUE_SIZE p i in
        if Byte.eqb b VALUE_TERM_BYTE then Ret i
        else scan n' p (wrap (i + 1)) end_
      else Ret i
  end.

Definition raw_qpage_pop (fuel : nat) (p : RawQPage) (start_byte : Z)
  : outcome (CSlice * RawQPage) :=
  let* (end_, p) := _get_write_idx_spin fuel p start_byte in
  if end_ <=? start_byte then
    Ret (mkCSlice 0 None READ_EMPTY, p)
  else
    let* b := buf_load QUEUE_SIZE p start_byte in
    if Byte.eqb b xfd then
      Ret (mkCSlice 0 None READ_FINISHED, p)
    else
      let* i := scan (Z.to_nat (end_ - start_byte)) p start_byte end_ in
      let* b := buf_load QUEUE_SIZE p i in
      if negb (Byte.eqb b VALUE_TERM_BYTE) then
        Ret (mkCSlice 0 None READ_ERROR, p)
      else
        Ret (mkCSlice (wrap (i - start_byte)) (Some start_byte) READ_SUCCESS, p).

(** [raw_qpage_push_fast_read], the push of the length-prefixed framing
    ([CONSTANT_TIME_READ]).  A
    reservation that is given up returns [WRITE_PAGE_FULL]. *)
Definition raw_qpage_push_fast_read (p : RawQPage) (buf : list byte) (len : Z)
  : outcome (Z * RawQPage) :=
  let '(start, p) :=
    atomic_fetch_add_write_idx_lock p
      (wrap (wrap (wrap (QUEUE_MAGIC_NUM + sizeof_size_t) + len) + 1)) in
  let start := Z.land start QUEUE_MAGIC_MASK in
  if wrap (start + len) >=? QUEUE_SIZE then
    let p := atomic_fetch_sub_write_idx_lock p QUEUE_MAGIC_NUM in
    Ret (WRITE_PAGE_FULL, p)
  else
    let* p := memcpy_buf QUEUE_SIZE p start
                (le_bytes (Z.to_nat sizeof_size_t) len) sizeof_size_t in
    let* p := memcpy_buf QUEUE_SIZE p (wrap (start + sizeof_size_t)) buf len in
    let* p := buf_store QUEUE_SIZE p
                (wrap (wrap (start + sizeof_size_t) + len)) VALUE_TERM_BYTE in
    let p := atomic_fetch_sub_write_idx_lock p QUEUE_MAGIC_NUM in
    Ret (to_int (wrap (wrap (len + sizeof_size_t) + 1)), p).

(** [raw_qpage_pop_fast_read].  The function never assigns
    [cs.read_status]: the field keeps the indeterminate value the variable
    started with, [uninit]. *)
Definition raw_qpage_pop_fast_read (uninit : Z) (fuel : nat) (p : RawQPage)
  (start_byte : Z) : outcome (CSlice * RawQPage) :=
  let* (end_, p) := raw_qpage_pop_fast_read_end fuel p start_byte in
  let* n := load_size_t QUEUE_SIZE p start_byte in
  let cs := mkCSlice n (Some (wrap (start_byte + sizeof_size_t))) uninit in
  let* b := buf_load QUEUE_SIZE p
              (wrap (wrap (start_byte + len cs) + sizeof_size_t)) in
  let cs := if negb (Byte.eqb b VALUE_TERM_BYTE)
            then mkCSlice 0 (ptr cs) (read_status cs)
            else cs in
  Ret (cs, p).


End Page.

End Part000.

(** ** src/src/page.c *)

Module PageC.

Definition READ_ERROR : Z := -12.

Definition PAGE_FULL : Z := -10.

Section Page.

Variable QUEUE_SIZE : Z.

Definition raw_qpage_push (p : RawQPage) (buf : list byte) (len : Z)
  : outcome (Z * RawQPage) :=
  let '(start, p) :=
    atomic_fetch_add_write_idx_lock p
      (wrap (wrap (QUEUE_MAGIC_NUM + len) + 1)) in
  let start := Z.land start QUEUE_MAGIC_MASK in
  if wrap (start + len) >=? QUEUE_SIZE - 1 then
    let* p := (if start <? QUEUE_SIZE - 1
               then buf_store QUEUE_SIZE p start xfd
               else Ret p) in
    let p := atomic_fetch_sub_write_idx_lock p QUEUE_MAGIC_NUM in
    Ret (WRITE_PAGE_FULL, p)
  else
    let* p := memcpy_buf QUEUE_SIZE p start buf len in
    let* p := buf_store QUEUE_SIZE p (wrap (start + len)) VALUE_TERM_BYTE in
    let p := atomic_fetch_sub_write_idx_lock p QUEUE_MAGIC_NUM in
    Ret (to_int (wrap (len + 1)), p).

(** The test that leaves the [while (1)] of [_get_write_idx_spin] and of
    [raw_qpage_pop_fast_read]: [(end & !QUEUE_MAGIC_MASK) == 0]. *)
Definition spin_exit (end_ : Z) : bool :=
  Z.land end_ (lognot QUEUE_MAGIC_MASK) =? 0.

Fixpoint spin (fuel : nat) (p : RawQPage) : outcome Z :=
  match fuel with
  | O => Spinning
  | S fuel' =>
      let end_ := write_idx_lock p in
      if spin_exit end_ then Ret end_ else spin fuel' p
  end.

Definition _get_write_idx_spin (fuel : nat) (p : RawQPage) (start_byte : Z)
  : outcome (Z * RawQPage) :=
  let end_ := last_safe_write_idx p in
  let* (end_, p) :=
    (if end_ <=? start_byte then
       let* end_ := spin fuel p in
       Ret (end_, set_last_safe_write_idx p end_)
     else Ret (end_, p)) in
  let end_ := if QUEUE_SIZE <? end_ then QUEUE_SIZE else end_ in
  Ret (end_, p).

(** [raw_qpage_pop_fast_read] up to the clamp of [end]; in this file its
    first part is the body of [_get_write_idx_spin]. *)
Definition raw_qpage_pop_fast_read_end (fuel : nat) (p : RawQPage)
  (start_byte : Z) : outcome (Z * RawQPage) :=
  let end_ := last_safe_write_idx p in
  let* (end_, p) :=
    (if end_ <=? start_byte then
       let* end_ := spin fuel p in
       Ret (end_, set_last_safe_write_idx p end_)
     else Ret (end_, p)) in
  let end_ := if QUEUE_SIZE <? end_ then QUEUE_SIZE else end_ in
  Ret (end_, p).

Fixpoint scan (n : nat) (p : RawQPage) (i end_ : Z) : outcome Z :=
  match n with
  | O => Ret i
  | S n' =>
      if i <? end_ then
        let* b := buf_load QUEUE_SIZE p i in
        if Byte.eqb b VALUE_TERM_BYTE then Ret i
        else scan n' p (wrap (i + 1)) end_
      else Ret i
  end.

(** The [if] that sets [READ_ERROR] has no [return]: the three stores
    after it overwrite what it stored. *)
Definition raw_qpage_pop (fuel : nat) (p : RawQPage) (start_byte : Z)
  : outcome (CSlice * RawQPage) :=
  let* (end_, p) := _get_write_idx_spin fuel p start_byte in
  if end_ =? start_byte then
    Ret (mkCSlice 0 None READ_EMPTY, p)
  else
    let* b := buf_load QUEUE_SIZE p start_byte in
    if Byte.eqb b xfd then
      Ret (mkCSlice 0 None READ_FINISHED, p)
    else
      let* i := scan (Z.to_nat (end_ - start_byte)) p start_byte end_ in
      let* b := buf_load QUEUE_SIZE p i in
      let cs := if negb (Byte.eqb b VALUE_TERM_BYTE)
                then mkCSlice 0 None READ_ERROR
                else unset_CSlice in
      let cs := mkCSlice (wrap (i - start_byte)) (ptr cs) (read_status cs) in
      let cs := mkCSlice (len cs) (Some start_byte) (read_status cs) in
      let cs := mkCSlice (len cs) (ptr cs) READ_SUCCESS in
      Ret (cs, p).

(** [raw_qpage_push_fast_read], the push of the length-prefixed framing
    ([CONSTANT_TIME_READ]).  A
    reservation that is given up returns [PAGE_FULL] here, not
    [WRITE_PAGE_FULL]. *)
Definition raw_qpage_push_fast_read (p : RawQPage) (buf : list byte) (len : Z)
  : outcome (Z * RawQPage) :=
  let '(start, p) :=
    atomic_fetch_add_write_idx_lock p
      (wrap (wrap (wrap (QUEUE_MAGIC_NUM + sizeof_size_t) + len) + 1)) in
  let start := Z.land start QUEUE_MAGIC_MASK in
  if wrap (start + len) >=? QUEUE_SIZE then
    let p := atomic_fetch_sub_write_idx_lock p QUEUE_MAGIC_NUM in
    Ret (PAGE_FULL, p)
  else
    let* p := memcpy_buf QUEUE_SIZE p start
                (le_bytes (Z.to_nat sizeof_size_t) len) sizeof_size_t in
    let* p := memcpy_buf QUEUE_SIZE p (wrap (start + sizeof_size_t)) buf len in
    let* p := buf_store QUEUE_SIZE p
                (wrap (wrap (start + sizeof_size_t) + len)) VALUE_TERM_BYTE in
    let p := atomic_fetch_sub_write_idx_lock p QUEUE_MAGIC_NUM in
    Ret (to_int (wrap (wrap (len + sizeof_size_t) + 1)), p).

(** [raw_qpage_pop_fast_read].  The function never assigns
    [cs.read_status]: the field keeps the indeterminate value the variable
    started with, [uninit]. *)
Definition raw_qpage_pop_fast_read (uninit : Z) (fuel : nat) (p : RawQPage)
  (start_byte : Z) : outcome (CSlice * RawQPage) :=
  let* (end_, p) := raw_qpage_pop_fast_read_end fuel p start_byte in
  let* n := load_size_t QUEUE_SIZE p start_byte in
  let cs := mkCSlice n (Some (wrap (start_byte + sizeof_size_t))) uninit in
  let* b := buf_load QUEUE_SIZE p
              (wrap (wrap (start_byte + len cs) + sizeof_size_t)) in
  let cs := if negb (Byte.eqb b VALUE_TERM_BYTE)
            then mkCSlice 0 (ptr cs) (read_status cs)
            else cs in
  Ret (cs, p).


End Page.

End PageC.

(** ** Pages and calls the statements below speak of *)

(** No writer is between its reservation and its commit. *)
Definition quiescent (p : RawQPage) : Prop :=
  size_t_range (write_idx_lock p) /\ writer_count (write_idx_lock p) = 0.

(** The cached end is not ahead of the write index of a quiescent page. *)
Definition safe_end_bounded (p : RawQPage) : Prop :=
  quiescent p /\ last_safe_write_idx p <= write_index (write_idx_lock p).

(** The write index has left the arena. *)
Definition sealed (QUEUE_SIZE : Z) (p : RawQPage) : Prop :=
  size_t_range (write_idx_lock p)
  /\ QUEUE_SIZE <= write_index (write_idx_lock p).

(** [(QUEUE_SIZE < end) ? QUEUE_SIZE : end] *)
Definition clamp (QUEUE_SIZE end_ : Z) : Z :=
  if QUEUE_SIZE <? end_ then QUEUE_SIZE else end_.

(** The page a push leaves when it gives its reservation up, having stamped
    the byte at its start ([stamp = true]) or not. *)
Definition abandoned (stamp : bool) (p : RawQPage) (n : Z) : RawQPage :=
  mkRawQPage (is_ready p) (wrap (write_idx_lock p + n + 1))
    (last_safe_write_idx p)
    (if stamp then upd (buf p) (write_index (write_idx_lock p)) xfd
     else buf p).

(** The page a push leaves when it has written its message. *)
Definition committed (p : RawQPage) (msg : list byte) (n : Z) : RawQPage :=
  mkRawQPage (is_ready p) (wrap (write_idx_lock p + n + 1))
    (last_safe_write_idx p)
    (upd (write_bytes (buf p) (write_index (write_idx_lock p))
            (firstn (Z.to_nat n) msg))
       (write_index (write_idx_lock p) + n) VALUE_TERM_BYTE).

Section Calls.

Variable push : RawQPage -> list byte -> Z -> outcome (Z * RawQPage).
Variable pop : nat -> RawQPage -> Z -> outcome (CSlice * RawQPage).

(** One call that returns.  A push counts only while its reservation keeps
    the write index inside its field, below [QUEUE_MAGIC_NUM]. *)
Inductive call : RawQPage -> RawQPage -> Prop :=
| call_push p msg n r p' :
    size_t_range n ->
    write_index (write_idx_lock p) + n + 1 < QUEUE_MAGIC_NUM ->
    push p msg n = Ret (r, p') ->
    call p p'
| call_pop fuel p start_byte cs p' :
    pop fuel p start_byte = Ret (cs, p') ->
    call p p'.

(** Any number of such calls, one after the other. *)
Inductive calls : RawQPage -> RawQPage -> Prop :=
| calls_none p : calls p p
| calls_more p p' p'' : calls p p' -> call p' p'' -> calls p p''.

End Calls.

Definition part000_calls (QUEUE_SIZE : Z) : RawQPage -> RawQPage -> Prop :=
  calls (Part000.raw_qpage_push QUEUE_SIZE) (Part000.raw_qpage_pop QUEUE_SIZE).

Definition pagec_calls (QUEUE_SIZE : Z) : RawQPage -> RawQPage -> Prop :=
  calls (PageC.raw_qpage_push QUEUE_SIZE) (PageC.raw_qpage_pop QUEUE_SIZE).

Definition abc : list byte := [x61; x62; x63].

Definition de : list byte := [x64; x65].

Definition abcd : list byte := [x61; x62; x63; x64].

Definition fourteen : list byte := repeat x61 14.

(** A writer has reserved four bytes of an empty page and not committed. *)
Definition writer_in_flight : RawQPage :=
  mkRawQPage 0 (QUEUE_MAGIC_NUM + 4) 0 (fun _ => x00).

(** A page file whose header says three bytes are written, with no
    terminator in or after them. *)
Definition unterminated : RawQPage :=
  mkRawQPage 0 3 0 (write_bytes (fun _ => x00) 0 abc).

(** The same header over the bytes 61 62 63 FF: the terminator lies at the
    write index, not before it. *)
Definition terminator_at_end : RawQPage :=
  mkRawQPage 0 3 0 (write_bytes (fun _ => x00) 0 [x61; x62; x63; xff]).

(** The page after one push of [QUEUE_SIZE - 2] bytes 61: only the last
    byte of the arena is not reserved. *)
Definition one_byte_left (QUEUE_SIZE : Z) : RawQPage :=
  mkRawQPage 0 (QUEUE_SIZE - 1) 0
    (fun i => if i <? QUEUE_SIZE - 2 then x61
              else if i =? QUEUE_SIZE - 2 then VALUE_TERM_BYTE else x00).

(** The page [raw_qpage_push_fast_read] leaves when it has written the
    length word, the [n] message bytes and the terminator. *)
Definition committed_fast_read (p : RawQPage) (msg : list byte) (n : Z)
  : RawQPage :=
  mkRawQPage (is_ready p) (wrap (write_idx_lock p + n + sizeof_size_t + 1))
    (last_safe_write_idx p)
    (upd (write_bytes
            (write_bytes (buf p) (write_index (write_idx_lock p))
               (le_bytes (Z.to_nat sizeof_size_t) n))
            (write_index (write_idx_lock p) + sizeof_size_t)
            (firstn (Z.to_nat n) msg))
       (write_index (write_idx_lock p) + sizeof_size_t + n) VALUE_TERM_BYTE).

(** The slice [raw_qpage_pop_fast_read] builds from the arena at a cursor:
    the stored length word, or 0 when the byte after the body it announces
    is not the terminator. *)
Definition fast_read_slice (p : RawQPage) (start_byte uninit : Z) : CSlice :=
  let n := le_value (read_bytes (buf p) start_byte (Z.to_nat sizeof_size_t)) in
  mkCSlice
    (if Byte.eqb (buf p (start_byte + n + sizeof_size_t)) VALUE_TERM_BYTE
     then n else 0)
    (Some (start_byte + sizeof_size_t)) uninit.


(** * Properties *)

(** ** The state word *)
Lemma size_t_modulus_eq : size_t_modulus = 2 ^ 64.
Proof. reflexivity. Qed.

Lemma QUEUE_MAGIC_NUM_eq : QUEUE_MAGIC_NUM = 2 ^ 56.
Proof. reflexivity. Qed.

Lemma wrap_small x : size_t_range x -> wrap x = x.
Proof. intros H. apply Z.mod_small. exact H. Qed.

Lemma wrap_range x : size_t_range (wrap x).
Proof. apply Z.mod_pos_bound. reflexivity. Qed.

Lemma to_int_small x : 0 <= x < 2 ^ 31 -> to_int x = x.
Proof. intros H. unfold to_int. rewrite Z.mod_small; lia. Qed.

Lemma reserve_release s len :
  wrap (wrap (s + wrap (wrap (QUEUE_MAGIC_NUM + len) + 1)) - QUEUE_MAGIC_NUM)
  = wrap (s + len + 1).
Proof.
  unfold wrap. rewrite size_t_modulus_eq, QUEUE_MAGIC_NUM_eq.
  Z.div_mod_to_equations. lia.
Qed.

Lemma write_index_mod s : write_index s = s mod 2 ^ 56.
Proof. unfold write_index. change QUEUE_MAGIC_MASK with (Z.ones 56). apply Z.land_ones. lia. Qed.

Lemma write_index_range s : 0 <= write_index s < 2 ^ 56.
Proof. rewrite write_index_mod. apply Z.mod_pos_bound. lia. Qed.

Lemma write_index_small s : 0 <= s < 2 ^ 56 -> write_index s = s.
Proof. intros H. rewrite write_index_mod. now apply Z.mod_small. Qed.

Lemma writer_count_div s : writer_count s = s / 2 ^ 56.
Proof. unfold writer_count. apply Z.shiftr_div_pow2. vm_compute. discriminate. Qed.

Lemma writer_count_small s : 0 <= s < 2 ^ 56 -> writer_count s = 0.
Proof. intros H. rewrite writer_count_div. now apply Z.div_small. Qed.

Lemma land_bitnot_mask s :
  size_t_range s -> Z.land s (bitnot QUEUE_MAGIC_MASK) = 2 ^ 56 * (s / 2 ^ 56).
Proof.
  intros Hs. unfold bitnot, wrap. rewrite size_t_modulus_eq.
  rewrite <- Z.land_ones by lia.
  rewrite Z.land_assoc.
  rewrite (Z.land_comm s), <- Z.land_assoc.
  rewrite (Z.land_ones s 64) by lia.
  rewrite (Z.mod_small s) by (rewrite <- size_t_modulus_eq; exact Hs).
  rewrite Z.land_comm.
  change (Z.land s (Z.lnot QUEUE_MAGIC_MASK)) with (Z.ldiff s (Z.ones 56)).
  rewrite Z.ldiff_ones_r by lia.
  rewrite Z.shiftl_mul_pow2, Z.shiftr_div_pow2 by lia. lia.
Qed.

Lemma advance_fields s n :
  size_t_range s -> 0 <= n -> write_index s + n + 1 < QUEUE_MAGIC_NUM ->
  wrap (s + n + 1) = s + n + 1
  /\ write_index (wrap (s + n + 1)) = write_index s + n + 1
  /\ writer_count (wrap (s + n + 1)) = writer_count s.
Proof.
  unfold size_t_range, wrap. rewrite size_t_modulus_eq, QUEUE_MAGIC_NUM_eq.
  rewrite !write_index_mod, !writer_count_div.
  intros Hs Hn Hb.
  assert (H64 : (s + n + 1) mod 2 ^ 64 = s + n + 1).
  { apply Z.mod_small. Z.div_mod_to_equations. lia. }
  rewrite H64. split; [reflexivity|].
  Z.div_mod_to_equations. lia.
Qed.

Lemma quiescent_write_index p :
  quiescent p -> write_index (write_idx_lock p) = write_idx_lock p.
Proof.
  intros [Hr Hw]. rewrite write_index_mod. rewrite writer_count_div in Hw.
  unfold size_t_range in Hr. rewrite size_t_modulus_eq in Hr.
  apply Z.mod_small.
  pose proof (Z.div_mod (write_idx_lock p) (2^56) ltac:(lia)).
  pose proof (Z.mod_pos_bound (write_idx_lock p) (2^56) ltac:(lia)). lia.
Qed.

Lemma quiescent_small p : 0 <= write_idx_lock p < 2 ^ 56 -> quiescent p.
Proof.
  intros H. split; [|now apply writer_count_small].
  unfold size_t_range. rewrite size_t_modulus_eq. lia.
Qed.

Lemma quiescent_bound p : quiescent p -> 0 <= write_idx_lock p < 2 ^ 56.
Proof.
  intros Hq. rewrite <- (quiescent_write_index p Hq). apply write_index_range.
Qed.

Lemma clamp_le QS e : e <= QS -> clamp QS e = e.
Proof. intros H. unfold clamp. destruct (Z.ltb_spec QS e); [lia|reflexivity]. Qed.

Lemma clamp_gt QS e : QS < e -> clamp QS e = QS.
Proof. intros H. unfold clamp. destruct (Z.ltb_spec QS e); [reflexivity|lia]. Qed.

(** ** The arena *)
Lemma upd_same b i v : upd b i v i = v.
Proof. unfold upd. now rewrite Z.eqb_refl. Qed.

Lemma upd_other b i v j : j <> i -> upd b i v j = b j.
Proof. intros H. unfold upd. destruct (Z.eqb_spec j i); congruence. Qed.

Lemma write_bytes_outside src : forall b dst j,
  j < dst \/ dst + Z.of_nat (length src) <= j ->
  write_bytes b dst src j = b j.
Proof.
  induction src as [|x src IH]; intros b dst j H; simpl in *; [reflexivity|].
  rewrite IH by lia. apply upd_other. lia.
Qed.

Lemma write_bytes_nth src : forall b dst k,
  (k < length src)%nat ->
  write_bytes b dst src (dst + Z.of_nat k) = nth k src x00.
Proof.
  induction src as [|x src IH]; intros b dst k Hk; simpl in *; [lia|].
  destruct k as [|k].
  - rewrite Z.add_0_r, write_bytes_outside by lia. apply upd_same.
  - replace (dst + Z.of_nat (S k)) with (dst + 1 + Z.of_nat k) by lia.
    apply IH. lia.
Qed.

Lemma read_write_bytes src : forall b dst,
  read_bytes (write_bytes b dst src) dst (length src) = src.
Proof.
  induction src as [|x src IH]; intros b dst; simpl; [reflexivity|].
  f_equal.
  - rewrite write_bytes_outside by lia. apply upd_same.
  - apply IH.
Qed.

Lemma read_bytes_ext n : forall b b' from,
  (forall j, from <= j < from + Z.of_nat n -> b j = b' j) ->
  read_bytes b from n = read_bytes b' from n.
Proof.
  induction n as [|n IH]; intros b b' from H; simpl; [reflexivity|].
  f_equal; [apply H; lia | apply IH; intros j Hj; apply H; lia].
Qed.

Lemma buf_load_in QS p i : 0 <= i < QS -> buf_load QS p i = Ret (buf p i).
Proof.
  intros H. unfold buf_load, in_buf.
  destruct (Z.leb_spec 0 i); [|lia]. destruct (Z.ltb_spec i QS); [|lia].
  reflexivity.
Qed.

Lemma buf_load_out QS p i : QS <= i -> buf_load QS p i = Undefined.
Proof.
  intros H. unfold buf_load, in_buf.
  destruct (Z.ltb_spec i QS); [lia|]. now rewrite andb_false_r.
Qed.

Lemma eqb_neq (b c : byte) : b <> c -> Byte.eqb b c = false.
Proof.
  intros H. destruct (Byte.eqb b c) eqn:E; [|reflexivity].
  apply Byte.byte_dec_bl in E. contradiction.
Qed.

Lemma eqb_same (b : byte) : Byte.eqb b b = true.
Proof. now apply Byte.byte_dec_lb. Qed.

(** ** [raw_qpage_push]: its two paths *)

Ltac fields :=
  unfold atomic_fetch_add_write_idx_lock, atomic_fetch_sub_write_idx_lock,
    set_write_idx_lock, set_last_safe_write_idx, set_buf in *;
  cbn [write_idx_lock is_ready last_safe_write_idx buf bind len ptr
       read_status fst snd] in *.

Lemma part000_push_full QS p msg len :
  0 < QS ->
  wrap (write_index (write_idx_lock p) + len) >= QS - 1 ->
  Part000.raw_qpage_push QS p msg len
  = Ret (WRITE_PAGE_FULL,
         abandoned (write_index (write_idx_lock p) <=? QS - 1) p len).
Proof.
  unfold Part000.raw_qpage_push, abandoned. intros.
  pose proof (write_index_range (write_idx_lock p)) as Hs.
  destruct p as [r s e b]. fields. fold (write_index s).
  destruct (Z.geb_spec (wrap (write_index s + len)) (QS - 1)); [|lia].
  destruct (Z.leb_spec (write_index s) (QS - 1)).
  - unfold buf_store, in_buf.
    destruct (Z.leb_spec 0 (write_index s)); [|lia].
    destruct (Z.ltb_spec (write_index s) QS); [|lia].
    cbn [andb]. fields. now rewrite reserve_release.
  - fields. now rewrite reserve_release.
Qed.

Lemma pagec_push_full QS p msg len :
  0 < QS ->
  wrap (write_index (write_idx_lock p) + len) >= QS - 1 ->
  PageC.raw_qpage_push QS p msg len
  = Ret (WRITE_PAGE_FULL,
         abandoned (write_index (write_idx_lock p) <? QS - 1) p len).
Proof.
  unfold PageC.raw_qpage_push, abandoned. intros.
  pose proof (write_index_range (write_idx_lock p)) as Hs.
  destruct p as [r s e b]. fields. fold (write_index s).
  destruct (Z.geb_spec (wrap (write_index s + len)) (QS - 1)); [|lia].
  destruct (Z.ltb_spec (write_index s) (QS - 1)).
  - unfold buf_store, in_buf.
    destruct (Z.leb_spec 0 (write_index s)); [|lia].
    destruct (Z.ltb_spec (write_index s) QS); [|lia].
    cbn [andb]. fields. now rewrite reserve_release.
  - fields. now rewrite reserve_release.
Qed.

Ltac push_fits_script s :=
  fields; fold (write_index s);
  rewrite (wrap_small (write_index s + _)) by (unfold size_t_range; lia);
  match goal with
  | |- context [Z.geb ?a ?b] => destruct (Z.geb_spec a b); [lia|]
  end;
  unfold memcpy_buf;
  match goal with
  | |- context [Z.leb ?n (Z.of_nat ?l)] => destruct (Z.leb_spec n (Z.of_nat l)); [|lia]
  end;
  destruct (Z.leb_spec 0 (write_index s)); [|lia];
  match goal with
  | |- context [Z.leb (?a + ?n) ?q] => destruct (Z.leb_spec (a + n) q); [|lia]
  end;
  cbn [andb]; fields; unfold buf_store, in_buf;
  match goal with
  | |- context [Z.leb 0 (?a + ?n)] => destruct (Z.leb_spec 0 (a + n)); [|lia]
  end;
  match goal with
  | |- context [Z.ltb ?a ?q] => destruct (Z.ltb_spec a q); [|lia]
  end;
  cbn [andb]; fields; rewrite reserve_release; reflexivity.

Lemma part000_push_fits QS p msg len :
  QS <= size_t_modulus ->
  0 <= len <= Z.of_nat (length msg) ->
  write_index (write_idx_lock p) + len < QS - 1 ->
  Part000.raw_qpage_push QS p msg len
  = Ret (to_int (wrap (len + 1)), committed p msg len).
Proof.
  unfold Part000.raw_qpage_push, committed. intros.
  pose proof (write_index_range (write_idx_lock p)).
  destruct p as [r s e b]. push_fits_script s.
Qed.

Lemma pagec_push_fits QS p msg len :
  QS <= size_t_modulus ->
  0 <= len <= Z.of_nat (length msg) ->
  write_index (write_idx_lock p) + len < QS - 1 ->
  PageC.raw_qpage_push QS p msg len
  = Ret (to_int (wrap (len + 1)), committed p msg len).
Proof.
  unfold PageC.raw_qpage_push, committed. intros.
  pose proof (write_index_range (write_idx_lock p)).
  destruct p as [r s e b]. push_fits_script s.
Qed.

Lemma part000_push_inv QS p msg n r p' :
  0 < QS < 2 ^ 31 -> size_t_range n ->
  Part000.raw_qpage_push QS p msg n = Ret (r, p') ->
  (wrap (write_index (write_idx_lock p) + n) >= QS - 1
   /\ r = WRITE_PAGE_FULL
   /\ p' = abandoned (write_index (write_idx_lock p) <=? QS - 1) p n)
  \/ (write_index (write_idx_lock p) + n < QS - 1
      /\ r = n + 1 /\ p' = committed p msg n).
Proof.
  intros HQ Hn Hpush.
  pose proof (write_index_range (write_idx_lock p)) as Hs.
  unfold size_t_range in Hn. rewrite size_t_modulus_eq in Hn.
  destruct (Z_lt_ge_dec (wrap (write_index (write_idx_lock p) + n)) (QS - 1))
    as [Hlt|Hge].
  - right.
    assert (Hfit : n <= Z.of_nat (length msg)
                   /\ write_index (write_idx_lock p) + n <= QS).
    { revert Hpush. unfold Part000.raw_qpage_push. destruct p as [r0 s e b].
      fields. fold (write_index s).
      destruct (Z.geb_spec (wrap (write_index s + n)) (QS - 1)); [lia|].
      unfold memcpy_buf.
      destruct (Z.leb_spec n (Z.of_nat (length msg)));
        destruct (Z.leb_spec 0 (write_index s));
        destruct (Z.leb_spec (write_index s + n) QS);
        cbn [andb bind]; try discriminate.
      intros _. cbn [write_idx_lock] in *. lia. }
    assert (Hw : wrap (write_index (write_idx_lock p) + n)
                 = write_index (write_idx_lock p) + n).
    { apply wrap_small. unfold size_t_range. rewrite size_t_modulus_eq. lia. }
    rewrite Hw in Hlt.
    rewrite part000_push_fits in Hpush; [|rewrite size_t_modulus_eq; lia|lia|lia].
    rewrite wrap_small in Hpush
      by (unfold size_t_range; rewrite size_t_modulus_eq; lia).
    rewrite to_int_small in Hpush by lia.
    injection Hpush as <- <-. auto.
  - left. rewrite part000_push_full in Hpush by lia.
    injection Hpush as <- <-. auto.
Qed.

Lemma pagec_push_inv QS p msg n r p' :
  0 < QS < 2 ^ 31 -> size_t_range n ->
  PageC.raw_qpage_push QS p msg n = Ret (r, p') ->
  (wrap (write_index (write_idx_lock p) + n) >= QS - 1
   /\ r = WRITE_PAGE_FULL
   /\ p' = abandoned (write_index (write_idx_lock p) <? QS - 1) p n)
  \/ (write_index (write_idx_lock p) + n < QS - 1
      /\ r = n + 1 /\ p' = committed p msg n).
Proof.
  intros HQ Hn Hpush.
  pose proof (write_index_range (write_idx_lock p)) as Hs.
  unfold size_t_range in Hn. rewrite size_t_modulus_eq in Hn.
  destruct (Z_lt_ge_dec (wrap (write_index (write_idx_lock p) + n)) (QS - 1))
    as [Hlt|Hge].
  - right.
    assert (Hfit : n <= Z.of_nat (length msg)
                   /\ write_index (write_idx_lock p) + n <= QS).
    { revert Hpush. unfold PageC.raw_qpage_push. destruct p as [r0 s e b].
      fields. fold (write_index s).
      destruct (Z.geb_spec (wrap (write_index s + n)) (QS - 1)); [lia|].
      unfold memcpy_buf.
      destruct (Z.leb_spec n (Z.of_nat (length msg)));
        destruct (Z.leb_spec 0 (write_index s));
        destruct (Z.leb_spec (write_index s + n) QS);
        cbn [andb bind]; try discriminate.
      intros _. cbn [write_idx_lock] in *. lia. }
    assert (Hw : wrap (write_index (write_idx_lock p) + n)
                 = write_index (write_idx_lock p) + n).
    { apply wrap_small. unfold size_t_range. rewrite size_t_modulus_eq. lia. }
    rewrite Hw in Hlt.
    rewrite pagec_push_fits in Hpush; [|rewrite size_t_modulus_eq; lia|lia|lia].
    rewrite wrap_small in Hpush
      by (unfold size_t_range; rewrite size_t_modulus_eq; lia).
    rewrite to_int_small in Hpush by lia.
    injection Hpush as <- <-. auto.
  - left. rewrite pagec_push_full in Hpush by lia.
    injection Hpush as <- <-. auto.
Qed.

(** What a push that returns does to the header, in either file. *)
Lemma push_header QS p msg n r p' :
  0 < QS < 2 ^ 31 -> size_t_range n ->
  Part000.raw_qpage_push QS p msg n = Ret (r, p')
  \/ PageC.raw_qpage_push QS p msg n = Ret (r, p') ->
  write_idx_lock p' = wrap (write_idx_lock p + n + 1)
  /\ last_safe_write_idx p' = last_safe_write_idx p
  /\ (r = WRITE_PAGE_FULL <->
      wrap (write_index (write_idx_lock p) + n) >= QS - 1).
Proof.
  intros HQ Hn [H|H];
    [apply part000_push_inv in H | apply pagec_push_inv in H]; trivial;
    pose proof (write_index_range (write_idx_lock p));
    unfold size_t_range in Hn; rewrite size_t_modulus_eq in Hn;
    (destruct H as [(Hge & -> & ->)|(Hlt & -> & ->)];
     [ repeat split; trivial
     | repeat split; trivial; unfold WRITE_PAGE_FULL; try lia;
       rewrite wrap_small
         by (unfold size_t_range; rewrite size_t_modulus_eq; lia); lia ]).
Qed.

(** ** The spin and [_get_write_idx_spin] *)
Lemma part000_spin_exit_iff s :
  size_t_range s -> Part000.spin_exit s = true <-> writer_count s = 0.
Proof.
  intros Hs. unfold Part000.spin_exit.
  rewrite land_bitnot_mask by exact Hs. rewrite writer_count_div.
  rewrite Z.eqb_eq. lia.
Qed.

Lemma pagec_spin_exit_true s : PageC.spin_exit s = true.
Proof.
  unfold PageC.spin_exit.
  change (lognot QUEUE_MAGIC_MASK) with 0. now rewrite Z.land_0_r.
Qed.

Lemma part000_fast_read_spin_exit_true s : Part000.fast_read_spin_exit s = true.
Proof.
  unfold Part000.fast_read_spin_exit.
  change (lognot QUEUE_MAGIC_MASK) with 0. now rewrite Z.land_0_r.
Qed.

Lemma part000_spin_quiescent fuel p :
  quiescent p -> Part000.spin (S fuel) p = Ret (write_idx_lock p).
Proof.
  intros [Hr Hw]. cbn [Part000.spin].
  now rewrite (proj2 (part000_spin_exit_iff _ Hr) Hw).
Qed.

Lemma part000_spin_result fuel p end_ :
  Part000.spin fuel p = Ret end_ ->
  end_ = write_idx_lock p /\ Part000.spin_exit end_ = true.
Proof.
  induction fuel as [|fuel IH]; cbn [Part000.spin]; [discriminate|].
  destruct (Part000.spin_exit (write_idx_lock p)) eqn:E; [|exact IH].
  intros H. injection H as <-. now split.
Qed.

Lemma part000_spin_in_flight fuel p :
  size_t_range (write_idx_lock p) ->
  writer_count (write_idx_lock p) <> 0 ->
  Part000.spin fuel p = Spinning.
Proof.
  intros Hr Hw. induction fuel as [|fuel IH]; cbn [Part000.spin]; [reflexivity|].
  destruct (Part000.spin_exit (write_idx_lock p)) eqn:E; [|exact IH].
  apply part000_spin_exit_iff in E; [contradiction | exact Hr].
Qed.

Lemma pagec_spin_returns fuel p : PageC.spin (S fuel) p = Ret (write_idx_lock p).
Proof. cbn [PageC.spin]. now rewrite pagec_spin_exit_true. Qed.

Lemma pagec_spin_result fuel p end_ :
  PageC.spin fuel p = Ret end_ -> end_ = write_idx_lock p.
Proof.
  destruct fuel as [|fuel]; [discriminate|].
  rewrite pagec_spin_returns. congruence.
Qed.

Lemma part000_get_idx_refresh QS fuel p c :
  quiescent p -> last_safe_write_idx p <= c ->
  Part000._get_write_idx_spin QS (S fuel) p c
  = Ret (clamp QS (write_idx_lock p),
         set_last_safe_write_idx p (write_idx_lock p)).
Proof.
  intros Hq Hc. unfold Part000._get_write_idx_spin.
  destruct (Z.leb_spec (last_safe_write_idx p) c); [|lia].
  rewrite part000_spin_quiescent by exact Hq. reflexivity.
Qed.


Lemma pagec_get_idx_refresh QS fuel p c :
  last_safe_write_idx p <= c ->
  PageC._get_write_idx_spin QS (S fuel) p c
  = Ret (clamp QS (write_idx_lock p),
         set_last_safe_write_idx p (write_idx_lock p)).
Proof.
  intros Hc. unfold PageC._get_write_idx_spin.
  destruct (Z.leb_spec (last_safe_write_idx p) c); [|lia].
  rewrite pagec_spin_returns. reflexivity.
Qed.


Lemma part000_get_idx_inv QS fuel p c E p' :
  Part000._get_write_idx_spin QS fuel p c = Ret (E, p') ->
  (last_safe_write_idx p <= c
   /\ p' = set_last_safe_write_idx p (write_idx_lock p)
   /\ Part000.spin_exit (write_idx_lock p) = true
   /\ E = clamp QS (write_idx_lock p))
  \/ (c < last_safe_write_idx p /\ p' = p /\ E = clamp QS (last_safe_write_idx p)).
Proof.
  unfold Part000._get_write_idx_spin.
  destruct (Z.leb_spec (last_safe_write_idx p) c) as [Hle|Hgt].
  - destruct (Part000.spin fuel p) as [e| |] eqn:Hspin; cbn [bind];
      try discriminate.
    apply part000_spin_result in Hspin. destruct Hspin as [-> Hexit].
    intros H. injection H as <- <-. left. auto.
  - cbn [bind]. intros H. injection H as <- <-. right. auto.
Qed.

Lemma pagec_get_idx_inv QS fuel p c E p' :
  PageC._get_write_idx_spin QS fuel p c = Ret (E, p') ->
  (last_safe_write_idx p <= c
   /\ p' = set_last_safe_write_idx p (write_idx_lock p)
   /\ E = clamp QS (write_idx_lock p))
  \/ (c < last_safe_write_idx p /\ p' = p /\ E = clamp QS (last_safe_write_idx p)).
Proof.
  unfold PageC._get_write_idx_spin.
  destruct (Z.leb_spec (last_safe_write_idx p) c) as [Hle|Hgt].
  - destruct (PageC.spin fuel p) as [e| |] eqn:Hspin; cbn [bind];
      try discriminate.
    apply pagec_spin_result in Hspin. subst e.
    intros H. injection H as <- <-. left. auto.
  - cbn [bind]. intros H. injection H as <- <-. right. auto.
Qed.

(** ** The scan and the cases of [raw_qpage_pop] *)
Lemma pagec_scan_eq : PageC.scan = Part000.scan.
Proof. reflexivity. Qed.

Lemma scan_stops QS p k end_ : forall n i,
  QS <= size_t_modulus -> 0 <= i <= k -> k < end_ <= QS ->
  (forall j, i <= j < k -> buf p j <> VALUE_TERM_BYTE) ->
  buf p k = VALUE_TERM_BYTE ->
  (Z.to_nat (k - i) < n)%nat ->
  Part000.scan QS n p i end_ = Ret k.
Proof.
  induction n as [|n IH]; intros i HQ Hi Hk Hno Hat Hn; [lia|].
  cbn [Part000.scan].
  destruct (Z.ltb_spec i end_); [|lia].
  rewrite buf_load_in by lia. cbn [bind].
  destruct (Z.eq_dec i k) as [->|Hne].
  - now rewrite Hat, eqb_same.
  - rewrite eqb_neq by (apply Hno; lia).
    rewrite wrap_small by (unfold size_t_range; lia).
    apply IH; trivial; try lia. intros j Hj. apply Hno. lia.
Qed.

Lemma scan_runs_off QS p end_ : forall n i,
  QS < size_t_modulus -> 0 <= i <= end_ -> end_ <= QS ->
  (forall j, i <= j < end_ -> buf p j <> VALUE_TERM_BYTE) ->
  (Z.to_nat (end_ - i) <= n)%nat ->
  Part000.scan QS n p i end_ = Ret end_.
Proof.
  induction n as [|n IH]; intros i HQ Hi Hk Hno Hn.
  - cbn [Part000.scan]. f_equal. lia.
  - cbn [Part000.scan].
    destruct (Z.ltb_spec i end_); [|f_equal; lia].
    rewrite buf_load_in by lia. cbn [bind].
    rewrite eqb_neq by (apply Hno; lia).
    rewrite wrap_small by (unfold size_t_range; lia).
    apply IH; trivial; try lia. intros j Hj. apply Hno. lia.
Qed.

Lemma scan_no_iteration QS p n i end_ :
  end_ <= i -> Part000.scan QS n p i end_ = Ret i.
Proof.
  intros H. destruct n; cbn [Part000.scan]; [reflexivity|].
  destruct (Z.ltb_spec i end_); [lia|reflexivity].
Qed.

Section PopCases.

Variables (QS : Z) (fuel : nat) (p p' : RawQPage) (c E : Z).

Lemma part000_pop_empty :
  Part000._get_write_idx_spin QS fuel p c = Ret (E, p') ->
  E <= c ->
  Part000.raw_qpage_pop QS fuel p c = Ret (mkCSlice 0 None READ_EMPTY, p').
Proof.
  intros Hget HE. unfold Part000.raw_qpage_pop. rewrite Hget. cbn [bind].
  destruct (Z.leb_spec E c); [reflexivity|lia].
Qed.

Lemma part000_pop_finished :
  Part000._get_write_idx_spin QS fuel p c = Ret (E, p') ->
  c < E -> 0 <= c < QS -> buf p' c = xfd ->
  Part000.raw_qpage_pop QS fuel p c = Ret (mkCSlice 0 None READ_FINISHED, p').
Proof.
  intros Hget HE Hc Hfd. unfold Part000.raw_qpage_pop. rewrite Hget. cbn [bind].
  destruct (Z.leb_spec E c); [lia|].
  rewrite buf_load_in by lia. cbn [bind]. now rewrite Hfd, eqb_same.
Qed.

Lemma part000_pop_success k :
  Part000._get_write_idx_spin QS fuel p c = Ret (E, p') ->
  QS <= size_t_modulus -> 0 <= c <= k -> k < E <= QS ->
  buf p' c <> xfd ->
  (forall j, c <= j < k -> buf p' j <> VALUE_TERM_BYTE) ->
  buf p' k = VALUE_TERM_BYTE ->
  Part000.raw_qpage_pop QS fuel p c
  = Ret (mkCSlice (k - c) (Some c) READ_SUCCESS, p').
Proof.
  intros Hget HQ Hc Hk Hfd Hno Hat.
  unfold Part000.raw_qpage_pop. rewrite Hget. cbn [bind].
  destruct (Z.leb_spec E c); [lia|].
  rewrite buf_load_in by lia. cbn [bind]. rewrite (eqb_neq _ _ Hfd).
  rewrite (scan_stops QS p' k E) by (trivial; lia). cbn [bind].
  rewrite buf_load_in by lia. cbn [bind]. rewrite Hat, eqb_same. cbn [negb].
  rewrite wrap_small by (unfold size_t_range; lia). reflexivity.
Qed.

Lemma part000_pop_error :
  Part000._get_write_idx_spin QS fuel p c = Ret (E, p') ->
  QS < size_t_modulus -> 0 <= c < E -> E < QS ->
  buf p' c <> xfd ->
  (forall j, c <= j < E -> buf p' j <> VALUE_TERM_BYTE) ->
  buf p' E <> VALUE_TERM_BYTE ->
  Part000.raw_qpage_pop QS fuel p c
  = Ret (mkCSlice 0 None Part000.READ_ERROR, p').
Proof.
  intros Hget HQ Hc HE Hfd Hno Hat.
  unfold Part000.raw_qpage_pop. rewrite Hget. cbn [bind].
  destruct (Z.leb_spec E c); [lia|].
  rewrite buf_load_in by lia. cbn [bind]. rewrite (eqb_neq _ _ Hfd).
  rewrite (scan_runs_off QS p' E) by (trivial; lia). cbn [bind].
  rewrite buf_load_in by lia. cbn [bind]. now rewrite (eqb_neq _ _ Hat).
Qed.

Lemma pagec_pop_empty :
  PageC._get_write_idx_spin QS fuel p c = Ret (E, p') ->
  E = c ->
  PageC.raw_qpage_pop QS fuel p c = Ret (mkCSlice 0 None READ_EMPTY, p').
Proof.
  intros Hget HE. unfold PageC.raw_qpage_pop. rewrite Hget. cbn [bind].
  destruct (Z.eqb_spec E c); [reflexivity|lia].
Qed.

Lemma pagec_pop_finished :
  PageC._get_write_idx_spin QS fuel p c = Ret (E, p') ->
  E <> c -> 0 <= c < QS -> buf p' c = xfd ->
  PageC.raw_qpage_pop QS fuel p c = Ret (mkCSlice 0 None READ_FINISHED, p').
Proof.
  intros Hget HE Hc Hfd. unfold PageC.raw_qpage_pop. rewrite Hget. cbn [bind].
  destruct (Z.eqb_spec E c); [lia|].
  rewrite buf_load_in by lia. cbn [bind]. now rewrite Hfd, eqb_same.
Qed.

Lemma pagec_pop_success k :
  PageC._get_write_idx_spin QS fuel p c = Ret (E, p') ->
  QS <= size_t_modulus -> 0 <= c <= k -> k < E <= QS ->
  buf p' c <> xfd ->
  (forall j, c <= j < k -> buf p' j <> VALUE_TERM_BYTE) ->
  buf p' k = VALUE_TERM_BYTE ->
  PageC.raw_qpage_pop QS fuel p c
  = Ret (mkCSlice (k - c) (Some c) READ_SUCCESS, p').
Proof.
  intros Hget HQ Hc Hk Hfd Hno Hat.
  unfold PageC.raw_qpage_pop. rewrite Hget. cbn [bind].
  destruct (Z.eqb_spec E c); [lia|].
  rewrite buf_load_in by lia. cbn [bind]. rewrite (eqb_neq _ _ Hfd).
  rewrite pagec_scan_eq.
  rewrite (scan_stops QS p' k E) by (trivial; lia). cbn [bind].
  rewrite buf_load_in by lia. cbn [bind]. rewrite Hat, eqb_same.
  cbn [negb len ptr read_status].
  rewrite wrap_small by (unfold size_t_range; lia). reflexivity.
Qed.

(** page.c, where part_000 returns [READ_ERROR]. *)
Lemma pagec_pop_falls_through :
  PageC._get_write_idx_spin QS fuel p c = Ret (E, p') ->
  QS < size_t_modulus -> 0 <= c < E -> E < QS ->
  buf p' c <> xfd ->
  (forall j, c <= j < E -> buf p' j <> VALUE_TERM_BYTE) ->
  buf p' E <> VALUE_TERM_BYTE ->
  PageC.raw_qpage_pop QS fuel p c
  = Ret (mkCSlice (E - c) (Some c) READ_SUCCESS, p').
Proof.
  intros Hget HQ Hc HE Hfd Hno Hat.
  unfold PageC.raw_qpage_pop. rewrite Hget. cbn [bind].
  destruct (Z.eqb_spec E c); [lia|].
  rewrite buf_load_in by lia. cbn [bind]. rewrite (eqb_neq _ _ Hfd).
  rewrite pagec_scan_eq.
  rewrite (scan_runs_off QS p' E) by (trivial; lia). cbn [bind].
  rewrite buf_load_in by lia. cbn [bind]. rewrite (eqb_neq _ _ Hat).
  cbn [negb len ptr read_status].
  rewrite wrap_small by (unfold size_t_range; lia). reflexivity.
Qed.

End PopCases.

Ltac pop_branches :=
  repeat match goal with
    | |- context [bind ?m _] =>
        match m with
        | bind _ _ => fail 1
        | _ => destruct m; cbn [bind]; try discriminate
        end
    | |- context [if ?b then _ else _] =>
        match type of b with bool => destruct b end
    end.

Lemma part000_pop_page QS fuel p c cs p' :
  Part000.raw_qpage_pop QS fuel p c = Ret (cs, p') ->
  exists E, Part000._get_write_idx_spin QS fuel p c = Ret (E, p').
Proof.
  unfold Part000.raw_qpage_pop.
  destruct (Part000._get_write_idx_spin QS fuel p c) as [[E q]| |];
    cbn [bind]; try discriminate.
  pop_branches; intros H; try discriminate H; injection H as <- <-; eauto.
Qed.

Lemma pagec_pop_page QS fuel p c cs p' :
  PageC.raw_qpage_pop QS fuel p c = Ret (cs, p') ->
  exists E, PageC._get_write_idx_spin QS fuel p c = Ret (E, p').
Proof.
  unfold PageC.raw_qpage_pop.
  destruct (PageC._get_write_idx_spin QS fuel p c) as [[E q]| |];
    cbn [bind]; try discriminate.
  pop_branches; intros H; try discriminate H; injection H as <- <-; eauto.
Qed.

(** What a pop that returns does to the page, in either file: at most a
    store of the state word into [last_safe_write_idx], and only from a
    value that is not above the cursor. *)
Lemma pop_page QS fuel p c cs p' :
  Part000.raw_qpage_pop QS fuel p c = Ret (cs, p')
  \/ PageC.raw_qpage_pop QS fuel p c = Ret (cs, p') ->
  p' = p
  \/ (last_safe_write_idx p <= c
      /\ p' = set_last_safe_write_idx p (write_idx_lock p)).
Proof.
  intros [H|H].
  - apply part000_pop_page in H. destruct H as [E H].
    apply part000_get_idx_inv in H. intuition.
  - apply pagec_pop_page in H. destruct H as [E H].
    apply pagec_get_idx_inv in H. intuition.
Qed.

(** ** Sealed pages and the cached end, call after call *)

(** A push that returns [WRITE_PAGE_FULL] has taken the path that gives
    the reservation up. *)
Lemma push_full_page QS p msg n p' :
  0 < QS < 2 ^ 31 -> size_t_range n ->
  Part000.raw_qpage_push QS p msg n = Ret (WRITE_PAGE_FULL, p')
  \/ PageC.raw_qpage_push QS p msg n = Ret (WRITE_PAGE_FULL, p') ->
  exists stamp,
    p' = abandoned stamp p n
    /\ wrap (write_index (write_idx_lock p) + n) >= QS - 1.
Proof.
  intros HQ Hn Hpush.
  assert (H0n : 0 <= n) by apply Hn.
  destruct Hpush as [H|H];
    [apply part000_push_inv in H | apply pagec_push_inv in H]; trivial;
    (destruct H as [(Hge & _ & ->)|(_ & Hr & _)];
     [eauto | unfold WRITE_PAGE_FULL in Hr; lia]).
Qed.

Lemma wrap_below_magic x : 0 <= x < QUEUE_MAGIC_NUM -> wrap x = x.
Proof.
  rewrite QUEUE_MAGIC_NUM_eq. intros H. apply wrap_small.
  unfold size_t_range. rewrite size_t_modulus_eq. lia.
Qed.

Lemma sealed_after_full QS p msg n p' :
  0 < QS < 2 ^ 31 -> size_t_range (write_idx_lock p) -> size_t_range n ->
  write_index (write_idx_lock p) + n + 1 < QUEUE_MAGIC_NUM ->
  Part000.raw_qpage_push QS p msg n = Ret (WRITE_PAGE_FULL, p')
  \/ PageC.raw_qpage_push QS p msg n = Ret (WRITE_PAGE_FULL, p') ->
  sealed QS p'.
Proof.
  intros HQ Hs Hn Hb Hpush.
  pose proof (write_index_range (write_idx_lock p)) as Hw.
  assert (H0n : 0 <= n) by apply Hn.
  destruct (push_full_page QS p msg n p' HQ Hn Hpush) as (stamp & -> & Hge).
  destruct (advance_fields _ n Hs H0n Hb) as (_ & Hwi & _).
  rewrite wrap_below_magic in Hge by lia.
  unfold sealed, abandoned. cbn [write_idx_lock]. rewrite Hwi.
  split; [apply wrap_range | lia].
Qed.

Lemma sealed_push QS p msg n :
  0 < QS < 2 ^ 31 -> sealed QS p -> size_t_range n ->
  write_index (write_idx_lock p) + n + 1 < QUEUE_MAGIC_NUM ->
  Part000.raw_qpage_push QS p msg n = Ret (WRITE_PAGE_FULL, abandoned false p n)
  /\ PageC.raw_qpage_push QS p msg n = Ret (WRITE_PAGE_FULL, abandoned false p n)
  /\ sealed QS (abandoned false p n).
Proof.
  intros HQ [Hs Hseal] Hn Hb.
  assert (H0n : 0 <= n) by apply Hn.
  destruct (advance_fields _ n Hs H0n Hb) as (Hwrap & Hwi & Hwc).
  assert (Hge : wrap (write_index (write_idx_lock p) + n) >= QS - 1).
  { rewrite wrap_small; [lia|].
    unfold size_t_range. rewrite size_t_modulus_eq.
    rewrite QUEUE_MAGIC_NUM_eq in Hb. lia. }
  split; [|split].
  - rewrite part000_push_full by lia.
    destruct (Z.leb_spec (write_index (write_idx_lock p)) (QS - 1)); [lia|].
    reflexivity.
  - rewrite pagec_push_full by lia.
    destruct (Z.ltb_spec (write_index (write_idx_lock p)) (QS - 1)); [lia|].
    reflexivity.
  - unfold sealed, abandoned. cbn [write_idx_lock]. rewrite Hwi.
    split; [apply wrap_range | lia].
Qed.

Lemma sealed_call QS p p' :
  0 < QS < 2 ^ 31 -> sealed QS p ->
  part000_calls QS p p' \/ pagec_calls QS p p' ->
  sealed QS p'.
Proof.
  intros HQ Hseal [Hcalls|Hcalls].
  - induction Hcalls as [|p p' p'' _ IH Hcall]; [exact Hseal|].
    specialize (IH Hseal).
    destruct Hcall as [q msg n r q' Hn Hb Hpush | fuel q c cs q' Hpop].
    + destruct (sealed_push QS q msg n HQ IH Hn Hb) as (Hp & _ & Hs').
      rewrite Hp in Hpush. injection Hpush as _ <-. exact Hs'.
    + destruct (pop_page QS fuel q c cs q' (or_introl Hpop)) as [->|[_ ->]];
        exact IH.
  - induction Hcalls as [|p p' p'' _ IH Hcall]; [exact Hseal|].
    specialize (IH Hseal).
    destruct Hcall as [q msg n r q' Hn Hb Hpush | fuel q c cs q' Hpop].
    + destruct (sealed_push QS q msg n HQ IH Hn Hb) as (_ & Hp & Hs').
      rewrite Hp in Hpush. injection Hpush as _ <-. exact Hs'.
    + destruct (pop_page QS fuel q c cs q' (or_intror Hpop)) as [->|[_ ->]];
        exact IH.
Qed.

Lemma safe_end_call QS p p' :
  0 < QS < 2 ^ 31 -> safe_end_bounded p ->
  call (Part000.raw_qpage_push QS) (Part000.raw_qpage_pop QS) p p'
  \/ call (PageC.raw_qpage_push QS) (PageC.raw_qpage_pop QS) p p' ->
  last_safe_write_idx p <= last_safe_write_idx p' /\ safe_end_bounded p'.
Proof.
  intros HQ [Hq Hsafe] Hcall.
  pose proof (quiescent_bound p Hq) as Hs.
  pose proof (quiescent_write_index p Hq) as Hwi.
  assert (Hcases :
    (exists n, 0 <= n /\ write_idx_lock p + n + 1 < 2 ^ 56
               /\ write_idx_lock p' = wrap (write_idx_lock p + n + 1)
               /\ last_safe_write_idx p' = last_safe_write_idx p)
    \/ p' = p
    \/ p' = set_last_safe_write_idx p (write_idx_lock p)).
  { destruct Hcall as [Hcall|Hcall];
      inversion Hcall as [q msg n r q' Hn Hb Hpush | fuel q c cs q' Hpop];
      subst q q'.
    - left. exists n.
      destruct (push_header QS p msg n r p' HQ Hn (or_introl Hpush))
        as (H1 & H2 & _).
      rewrite QUEUE_MAGIC_NUM_eq in Hb. repeat split; trivial; [apply Hn|lia].
    - right.
      destruct (pop_page QS fuel p c cs p' (or_introl Hpop)) as [->|[_ ->]];
        auto.
    - left. exists n.
      destruct (push_header QS p msg n r p' HQ Hn (or_intror Hpush))
        as (H1 & H2 & _).
      rewrite QUEUE_MAGIC_NUM_eq in Hb. repeat split; trivial; [apply Hn|lia].
    - right.
      destruct (pop_page QS fuel p c cs p' (or_intror Hpop)) as [->|[_ ->]];
        auto. }
  destruct Hcases as [(n & H0n & Hb & Hs' & Hsafe')|[->| ->]].
  - rewrite wrap_small in Hs'
      by (unfold size_t_range; rewrite size_t_modulus_eq; lia).
    assert (Hq' : quiescent p') by (apply quiescent_small; lia).
    split; [lia|]. split; [exact Hq'|].
    rewrite (quiescent_write_index p' Hq'). lia.
  - split; [lia|]. now split.
  - unfold safe_end_bounded, quiescent, set_last_safe_write_idx.
    cbn [last_safe_write_idx write_idx_lock].
    split; [lia|]. split; [exact Hq|lia].
Qed.

Lemma committed_fresh_buf m :
  buf (committed fresh_page m (Z.of_nat (length m)))
  = upd (write_bytes (fun _ => x00) 0 m) (Z.of_nat (length m)) xff.
Proof.
  unfold committed, fresh_page. cbn [buf write_idx_lock].
  change (write_index 0) with 0.
  now rewrite Nat2Z.id, firstn_all.
Qed.

(** ** The page with one byte left *)

(** [one_byte_left] is the page one push of [QUEUE_SIZE - 2] bytes makes of
    a fresh page. *)
Lemma one_byte_left_is_reached QS :
  2 <= QS < 2 ^ 31 ->
  exists p,
    Part000.raw_qpage_push QS fresh_page
      (repeat x61 (Z.to_nat (QS - 2))) (QS - 2)
    = Ret (QS - 1, p)
    /\ is_ready p = is_ready (one_byte_left QS)
    /\ write_idx_lock p = write_idx_lock (one_byte_left QS)
    /\ last_safe_write_idx p = last_safe_write_idx (one_byte_left QS)
    /\ forall i, 0 <= i < QS -> buf p i = buf (one_byte_left QS) i.
Proof.
  intros HQ.
  set (n := QS - 2). set (msg := repeat x61 (Z.to_nat n)).
  assert (Hlen : length msg = Z.to_nat n) by apply repeat_length.
  assert (Hw : wrap (n + 1) = n + 1).
  { apply wrap_small. unfold size_t_range. rewrite size_t_modulus_eq.
    subst n. lia. }
  exists (committed fresh_page msg n). split; [|split; [|split; [|split]]].
  - rewrite part000_push_fits.
    + rewrite Hw, to_int_small by (subst n; lia). f_equal. f_equal. subst n. lia.
    + rewrite size_t_modulus_eq. lia.
    + rewrite Hlen. subst n. lia.
    + change (write_index (write_idx_lock fresh_page)) with 0. subst n. lia.
  - reflexivity.
  - unfold committed, fresh_page, one_byte_left. cbn [write_idx_lock].
    rewrite Z.add_0_l, Hw. subst n. lia.
  - reflexivity.
  - intros i Hi. unfold committed, fresh_page, one_byte_left. cbn [buf write_idx_lock].
    change (write_index 0) with 0. rewrite Z.add_0_l. fold n.
    rewrite <- Hlen, firstn_all.
    destruct (Z.ltb_spec i n) as [Hlt|Hge].
    + rewrite upd_other by lia.
      replace i with (0 + Z.of_nat (Z.to_nat i)) at 1 by lia.
      rewrite write_bytes_nth by lia.
      unfold msg. rewrite (nth_indep _ x00 x61) by (fold msg; lia).
      apply nth_repeat.
    + destruct (Z.eqb_spec i n) as [->|Hne].
      * apply upd_same.
      * rewrite upd_other by lia. rewrite write_bytes_outside by lia.
        reflexivity.
Qed.

(** * The claims *)

(** ** C1: push then pop gives the message back *)

(** C1, as amended.  For every message [m] that holds no byte 0xFF, whose
    first byte is not 0xFD, and whose reservation fits
    ([len + 1 <= QUEUE_SIZE - 1]), [raw_qpage_push] on a fresh page returns
    [len + 1], and [raw_qpage_pop] at cursor 0 then returns [READ_SUCCESS]
    with [len] the length of [m] and a slice whose bytes are [m]. *)
Theorem part000_push_pop_round_trip (QS : Z) (m : list byte) (fuel : nat) :
  0 < QS < 2 ^ 31 ->
  ~ In VALUE_TERM_BYTE m ->
  hd_error m <> Some xfd ->
  Z.of_nat (length m) + 1 <= QS - 1 ->
  exists p1 p2 cs,
    Part000.raw_qpage_push QS fresh_page m (Z.of_nat (length m))
    = Ret (Z.of_nat (length m) + 1, p1)
    /\ Part000.raw_qpage_pop QS (S fuel) p1 0 = Ret (cs, p2)
    /\ read_status cs = READ_SUCCESS
    /\ len cs = Z.of_nat (length m)
    /\ slice_bytes p2 cs = m.
Proof.
  intros HQ Hterm Hfd Hfit.
  set (n := Z.of_nat (length m)) in *.
  assert (Hn : 0 <= n) by (subst n; lia).
  pose (p1 := committed fresh_page m n).
  assert (Hs1 : write_idx_lock p1 = n + 1).
  { unfold p1, committed, fresh_page. cbn [write_idx_lock].
    apply wrap_small. unfold size_t_range. rewrite size_t_modulus_eq. lia. }
  assert (Hb1 : buf p1 = upd (write_bytes (fun _ => x00) 0 m) n xff)
    by apply committed_fresh_buf.
  exists p1, (set_last_safe_write_idx p1 (write_idx_lock p1)),
    (mkCSlice (n - 0) (Some 0) READ_SUCCESS).
  split; [|split; [|split; [reflexivity|split; [cbn [len]; lia|]]]].
  - rewrite part000_push_fits.
    + rewrite wrap_small by (unfold size_t_range; rewrite size_t_modulus_eq; lia).
      rewrite to_int_small by lia. reflexivity.
    + rewrite size_t_modulus_eq. lia.
    + lia.
    + change (write_index (write_idx_lock fresh_page)) with 0. lia.
  - apply part000_pop_success with (E := n + 1).
    + rewrite part000_get_idx_refresh.
      * rewrite Hs1, clamp_le by lia. reflexivity.
      * apply quiescent_small. lia.
      * reflexivity.
    + rewrite size_t_modulus_eq. lia.
    + lia.
    + lia.
    + cbn [set_last_safe_write_idx buf]. rewrite Hb1.
      destruct m as [|x m'].
      * change n with 0. now rewrite upd_same.
      * rewrite upd_other by (subst n; cbn [length]; lia).
        rewrite (write_bytes_nth (x :: m') _ 0 0%nat) by (cbn [length]; lia).
        cbn [nth]. intros ->. now apply Hfd.
    + intros j Hj. cbn [set_last_safe_write_idx buf]. rewrite Hb1.
      rewrite upd_other by lia.
      replace j with (0 + Z.of_nat (Z.to_nat j)) by lia.
      rewrite write_bytes_nth by lia.
      intros Heq. apply Hterm. rewrite <- Heq. apply nth_In. lia.
    + cbn [set_last_safe_write_idx buf]. rewrite Hb1. apply upd_same.
  - unfold slice_bytes. cbn [ptr len set_last_safe_write_idx buf].
    rewrite Hb1. replace (Z.to_nat (n - 0)) with (length m) by lia.
    rewrite (read_bytes_ext _ _ (write_bytes (fun _ => x00) 0 m)).
    + apply read_write_bytes.
    + intros j Hj. apply upd_other. lia.
Qed.

(** The amended C1 at the message "abc" and the [QUEUE_SIZE] of page.h. *)
Lemma part000_push_pop_round_trip_abc :
  exists p1 p2 cs,
    Part000.raw_qpage_push page_h_QUEUE_SIZE fresh_page abc 3 = Ret (3 + 1, p1)
    /\ Part000.raw_qpage_pop page_h_QUEUE_SIZE 1 p1 0 = Ret (cs, p2)
    /\ read_status cs = READ_SUCCESS
    /\ len cs = 3
    /\ slice_bytes p2 cs = abc.
Proof.
  apply (part000_push_pop_round_trip page_h_QUEUE_SIZE abc 0).
  - unfold page_h_QUEUE_SIZE. lia.
  - unfold abc. intros [H|[H|[H|[]]]]; discriminate H.
  - discriminate.
  - vm_compute. discriminate.
Defined.

(** C1 as stated fails at the one-byte message FD: it holds no 0xFF and
    fits, the push returns 2, and the pop at cursor 0 reads the message's
    first byte as the full-page mark and returns [READ_FINISHED] with
    [len] 0 and a null pointer. *)
Lemma part000_round_trip_fd_first :
  ~ In VALUE_TERM_BYTE [xfd]
  /\ Z.of_nat (length [xfd]) + 1 <= page_h_QUEUE_SIZE - 1
  /\ exists p1,
      Part000.raw_qpage_push page_h_QUEUE_SIZE fresh_page [xfd] 1 = Ret (2, p1)
      /\ forall fuel,
          Part000.raw_qpage_pop page_h_QUEUE_SIZE (S fuel) p1 0
          = Ret (mkCSlice 0 None READ_FINISHED, set_last_safe_write_idx p1 2)
          /\ ~ (exists cs p2,
                  Part000.raw_qpage_pop page_h_QUEUE_SIZE (S fuel) p1 0
                  = Ret (cs, p2)
                  /\ read_status cs = READ_SUCCESS).
Proof.
  split; [|split].
  - intros [H|[]]. discriminate H.
  - vm_compute. discriminate.
  - exists (committed fresh_page [xfd] 1). split; [reflexivity|].
    intros fuel.
    assert (H : Part000.raw_qpage_pop page_h_QUEUE_SIZE (S fuel)
                  (committed fresh_page [xfd] 1) 0
                = Ret (mkCSlice 0 None READ_FINISHED,
                       set_last_safe_write_idx (committed fresh_page [xfd] 1) 2))
      by reflexivity.
    split; [exact H|].
    intros (cs & p2 & Hpop & Hst). rewrite H in Hpop.
    injection Hpop as <- _. discriminate Hst.
Qed.

(** ** C2: the test that leaves the spin *)

(** C2 at the state word [QUEUE_MAGIC_NUM + 4] (one writer in flight, write
    index 4).  The test of page.c's [_get_write_idx_spin] and of
    [raw_qpage_pop_fast_read] in both files, [(end & !QUEUE_MAGIC_MASK) == 0],
    holds although the writer count is 1, and the three functions leave
    their loop on the first load: they store the word, writer count
    included, in [last_safe_write_idx] and go on with [end] clamped to
    [QUEUE_SIZE]. *)
Theorem spin_leaves_with_writer_in_flight (fuel : nat) :
  writer_count (write_idx_lock writer_in_flight) = 1
  /\ PageC.spin_exit (write_idx_lock writer_in_flight) = true
  /\ Part000.fast_read_spin_exit (write_idx_lock writer_in_flight) = true
  /\ PageC._get_write_idx_spin page_c_QUEUE_SIZE (S fuel) writer_in_flight 0
     = Ret (page_c_QUEUE_SIZE,
            set_last_safe_write_idx writer_in_flight (QUEUE_MAGIC_NUM + 4))
  /\ PageC.raw_qpage_pop_fast_read_end page_c_QUEUE_SIZE (S fuel) writer_in_flight 0
     = Ret (page_c_QUEUE_SIZE,
            set_last_safe_write_idx writer_in_flight (QUEUE_MAGIC_NUM + 4))
  /\ Part000.raw_qpage_pop_fast_read_end page_h_QUEUE_SIZE (S fuel) writer_in_flight 0
     = Ret (page_h_QUEUE_SIZE,
            set_last_safe_write_idx writer_in_flight (QUEUE_MAGIC_NUM + 4)).
Proof. repeat split; reflexivity. Qed.

(** The sibling: the [_get_write_idx_spin] of part_000 tests with [~], and
    its loop leaves only on a word whose writer count is 0; on the page above
    it never leaves. *)
Lemma part000_spin_only_leaves_without_writers fuel p end_ :
  size_t_range (write_idx_lock p) ->
  Part000.spin fuel p = Ret end_ ->
  end_ = write_idx_lock p /\ writer_count end_ = 0.
Proof.
  intros Hr Hspin. apply part000_spin_result in Hspin.
  destruct Hspin as [-> Hexit]. split; [reflexivity|].
  now apply part000_spin_exit_iff.
Qed.

Lemma part000_get_write_idx_spin_waits fuel :
  Part000._get_write_idx_spin page_h_QUEUE_SIZE fuel writer_in_flight 0 = Spinning.
Proof.
  unfold Part000._get_write_idx_spin.
  change (last_safe_write_idx writer_in_flight <=? 0) with true. cbv iota.
  rewrite part000_spin_in_flight; [reflexivity| |].
  - vm_compute. intuition discriminate.
  - vm_compute. discriminate.
Qed.

(** ** C3: a scan that finds no terminator *)

(** C3 at the page [unterminated] (write index 3, bytes 61 62 63 and zeros
    after them), cursor 0, in page.c: the scan reaches [end = 3] with no
    0xFF, the byte at 3 is not 0xFF either, and [raw_qpage_pop] returns a
    slice of length 3 at [&buf[0]] with [READ_SUCCESS]. *)
Theorem pagec_pop_overwrites_read_error (fuel : nat) :
  (forall j, 0 <= j <= 3 -> buf unterminated j <> VALUE_TERM_BYTE)
  /\ PageC._get_write_idx_spin page_c_QUEUE_SIZE (S fuel) unterminated 0
     = Ret (3, set_last_safe_write_idx unterminated 3)
  /\ PageC.raw_qpage_pop page_c_QUEUE_SIZE (S fuel) unterminated 0
     = Ret (mkCSlice 3 (Some 0) READ_SUCCESS,
            set_last_safe_write_idx unterminated 3).
Proof.
  split; [|split; reflexivity].
  intros j Hj.
  assert (Hc : j = 0 \/ j = 1 \/ j = 2 \/ j = 3) by lia.
  destruct Hc as [->|[->|[->| ->]]]; vm_compute; discriminate.
Qed.

(** The sibling: part_000 returns [READ_ERROR], [len] 0 and a null pointer
    on that page. *)
Lemma part000_pop_unterminated_is_error fuel :
  Part000.raw_qpage_pop page_h_QUEUE_SIZE (S fuel) unterminated 0
  = Ret (mkCSlice 0 None Part000.READ_ERROR,
         set_last_safe_write_idx unterminated 3).
Proof. reflexivity. Qed.

(** part_000 decides by the byte at [end], not by the index: with 0xFF at
    the write index itself the scan of [0, 3) finds no terminator and the pop
    still returns [READ_SUCCESS]. *)
Lemma part000_pop_reads_the_byte_at_end fuel :
  (forall j, 0 <= j < 3 -> buf terminator_at_end j <> VALUE_TERM_BYTE)
  /\ Part000._get_write_idx_spin page_h_QUEUE_SIZE (S fuel) terminator_at_end 0
     = Ret (3, set_last_safe_write_idx terminator_at_end 3)
  /\ Part000.raw_qpage_pop page_h_QUEUE_SIZE (S fuel) terminator_at_end 0
     = Ret (mkCSlice 3 (Some 0) READ_SUCCESS,
            set_last_safe_write_idx terminator_at_end 3).
Proof.
  split; [|split; reflexivity].
  intros j Hj.
  assert (Hc : j = 0 \/ j = 1 \/ j = 2) by lia.
  destruct Hc as [->|[->| ->]]; vm_compute; discriminate.
Qed.

(** ** C4: the mark a full push leaves *)

(** C4 in page.c.  With [QUEUE_SIZE] 16, a 14-byte push leaves the write
    index at 15; the 4-byte push that follows returns [WRITE_PAGE_FULL] and
    leaves the byte at 15 as it was (0x00), and the pop at cursor 15 runs to
    [end = 16] and reads [buf[16]], outside the array.  With the
    [QUEUE_SIZE] of page.c itself the same holds of a push on a page whose
    write index is [QUEUE_SIZE - 1]. *)
Theorem pagec_page_full_leaves_last_byte (fuel : nat) :
  exists p1 p2,
    PageC.raw_qpage_push 16 fresh_page fourteen 14 = Ret (15, p1)
    /\ PageC.raw_qpage_push 16 p1 abcd 4
       = Ret (WRITE_PAGE_FULL, p2)
    /\ write_index (write_idx_lock p1) = 15
    /\ buf p2 15 = x00
    /\ PageC.raw_qpage_pop 16 (S fuel) p2 15 = Undefined
    /\ exists p3,
        PageC.raw_qpage_push page_c_QUEUE_SIZE
          (one_byte_left page_c_QUEUE_SIZE) abcd 4
        = Ret (WRITE_PAGE_FULL, p3)
        /\ write_index (write_idx_lock (one_byte_left page_c_QUEUE_SIZE))
           = page_c_QUEUE_SIZE - 1
        /\ buf p3 (page_c_QUEUE_SIZE - 1) = x00.
Proof.
  do 2 eexists. repeat split; try reflexivity.
  eexists. repeat split; reflexivity.
Qed.

(** The sibling: part_000 stamps every start inside the array, and does as
    the scenario says. *)
Lemma part000_page_full_stamps QS p msg n :
  0 < QS ->
  wrap (write_index (write_idx_lock p) + n) >= QS - 1 ->
  exists p',
    Part000.raw_qpage_push QS p msg n = Ret (WRITE_PAGE_FULL, p')
    /\ (write_index (write_idx_lock p) < QS ->
        buf p' (write_index (write_idx_lock p)) = xfd).
Proof.
  intros HQ Hfull. eexists. split; [now apply part000_push_full|].
  intros Hin. unfold abandoned. cbn [buf].
  destruct (Z.leb_spec (write_index (write_idx_lock p)) (QS - 1)); [|lia].
  apply upd_same.
Qed.

Lemma part000_page_full_scenario fuel :
  exists p1 p2,
    Part000.raw_qpage_push 16 fresh_page fourteen 14 = Ret (15, p1)
    /\ Part000.raw_qpage_push 16 p1 abcd 4
       = Ret (WRITE_PAGE_FULL, p2)
    /\ buf p2 15 = xfd
    /\ Part000.raw_qpage_pop 16 (S fuel) p2 15
       = Ret (mkCSlice 0 None READ_FINISHED, set_last_safe_write_idx p2 20).
Proof. do 2 eexists. repeat split; reflexivity. Qed.

(** ** C5: a full page stays full *)

(** C5, as amended.  Once a push has returned [WRITE_PAGE_FULL], every later
    push on the page returns [WRITE_PAGE_FULL] too, whatever calls came in
    between, as long as every push keeps the write index inside its 56-bit
    field ([write index + len + 1 < QUEUE_MAGIC_NUM]).  In both files. *)
Theorem page_full_is_terminal (QS : Z) (p : RawQPage) (msg : list byte) (n : Z)
  (p1 p2 : RawQPage) (msg' : list byte) (n' : Z) :
  0 < QS < 2 ^ 31 ->
  size_t_range (write_idx_lock p) ->
  size_t_range n ->
  write_index (write_idx_lock p) + n + 1 < QUEUE_MAGIC_NUM ->
  size_t_range n' ->
  write_index (write_idx_lock p2) + n' + 1 < QUEUE_MAGIC_NUM ->
  (Part000.raw_qpage_push QS p msg n = Ret (WRITE_PAGE_FULL, p1) ->
   part000_calls QS p1 p2 ->
   exists p3, Part000.raw_qpage_push QS p2 msg' n' = Ret (WRITE_PAGE_FULL, p3))
  /\ (PageC.raw_qpage_push QS p msg n = Ret (WRITE_PAGE_FULL, p1) ->
      pagec_calls QS p1 p2 ->
      exists p3, PageC.raw_qpage_push QS p2 msg' n' = Ret (WRITE_PAGE_FULL, p3)).
Proof.
  intros HQ Hs Hn Hb Hn' Hb'. split; intros Hfull Hcalls.
  - assert (Hs1 : sealed QS p1)
      by (apply (sealed_after_full QS p msg n); auto).
    assert (Hs2 : sealed QS p2) by (apply (sealed_call QS p1); auto).
    destruct (sealed_push QS p2 msg' n' HQ Hs2 Hn' Hb') as (Hp & _ & _). eauto.
  - assert (Hs1 : sealed QS p1)
      by (apply (sealed_after_full QS p msg n); auto).
    assert (Hs2 : sealed QS p2) by (apply (sealed_call QS p1); auto).
    destruct (sealed_push QS p2 msg' n' HQ Hs2 Hn' Hb') as (_ & Hp & _). eauto.
Qed.

(** The amended C5 on the 16-byte arena: after the 14-byte push, a 4-byte
    push is full; a pop at cursor 15 and a 3-byte push follow, and the
    2-byte push after them is full too. *)
Lemma page_full_is_terminal_sixteen :
  let p := committed fresh_page fourteen 14 in
  let p1 := abandoned true p 4 in
  let p2 := abandoned false (set_last_safe_write_idx p1 20) 3 in
  Part000.raw_qpage_push 16 p abcd 4 = Ret (WRITE_PAGE_FULL, p1)
  /\ Part000.raw_qpage_pop 16 1 p1 15
     = Ret (mkCSlice 0 None READ_FINISHED, set_last_safe_write_idx p1 20)
  /\ Part000.raw_qpage_push 16 (set_last_safe_write_idx p1 20) abc 3
     = Ret (WRITE_PAGE_FULL, p2)
  /\ exists p3, Part000.raw_qpage_push 16 p2 de 2 = Ret (WRITE_PAGE_FULL, p3).
Proof.
  cbv zeta.
  set (p := committed fresh_page fourteen 14).
  set (p1 := abandoned true p 4).
  set (p1' := set_last_safe_write_idx p1 20).
  set (p2 := abandoned false p1' 3).
  assert (Hpop : Part000.raw_qpage_pop 16 1 p1 15
                 = Ret (mkCSlice 0 None READ_FINISHED, p1')) by reflexivity.
  assert (Hpush : Part000.raw_qpage_push 16 p1' abc 3
                  = Ret (WRITE_PAGE_FULL, p2)) by reflexivity.
  split; [reflexivity|]. split; [exact Hpop|]. split; [exact Hpush|].
  apply (proj1 (page_full_is_terminal 16 p abcd 4 p1 p2 de 2
                  ltac:(lia)
                  ltac:(vm_compute; intuition discriminate)
                  ltac:(vm_compute; intuition discriminate)
                  ltac:(vm_compute; reflexivity)
                  ltac:(vm_compute; intuition discriminate)
                  ltac:(vm_compute; reflexivity))).
  - reflexivity.
  - apply calls_more with (p' := p1').
    + apply calls_more with (p' := p1); [apply calls_none|].
      exact (call_pop _ _ 1%nat p1 15 _ p1' Hpop).
    + apply (call_push _ _ p1' abc 3 WRITE_PAGE_FULL p2).
      * vm_compute. intuition discriminate.
      * vm_compute. reflexivity.
      * exact Hpush.
Defined.

(** C5 as stated fails for a push of length [2 ^ 56 - 1] on a fresh page: it
    returns [WRITE_PAGE_FULL], the write index wraps round to 0, and the
    push of "abc" that follows writes its message at offset 0 and
    returns 4. *)
Lemma page_full_then_push_succeeds :
  size_t_range (2 ^ 56 - 1)
  /\ exists p1 p2,
      Part000.raw_qpage_push page_h_QUEUE_SIZE fresh_page [] (2 ^ 56 - 1)
      = Ret (WRITE_PAGE_FULL, p1)
      /\ Part000.raw_qpage_push page_h_QUEUE_SIZE p1 abc 3 = Ret (4, p2)
      /\ read_bytes (buf p2) 0 4 = [x61; x62; x63; xff]
      /\ ~ (exists p3,
              Part000.raw_qpage_push page_h_QUEUE_SIZE p1 abc 3
              = Ret (WRITE_PAGE_FULL, p3)).
Proof.
  split; [vm_compute; intuition discriminate|].
  exists (abandoned true fresh_page (2 ^ 56 - 1)).
  exists (committed (abandoned true fresh_page (2 ^ 56 - 1)) abc 3).
  assert (H : Part000.raw_qpage_push page_h_QUEUE_SIZE
                (abandoned true fresh_page (2 ^ 56 - 1)) abc 3
              = Ret (4, committed (abandoned true fresh_page (2 ^ 56 - 1)) abc 3))
    by reflexivity.
  split; [reflexivity|]. split; [exact H|]. split; [reflexivity|].
  intros [p3 Hp3]. rewrite H in Hp3. discriminate Hp3.
Qed.

(** ** C6: two messages *)

(** C6.  After pushing "abc" and "de" on a fresh page the arena starts
    61 62 63 FF 64 65 FF; the pop at 0 gives "abc", the pop at 4 gives "de",
    the pop at 7 is [READ_EMPTY]. *)
Theorem part000_two_messages (fuel : nat) :
  exists p1 p2 p3 p4 p5,
    Part000.raw_qpage_push page_h_QUEUE_SIZE fresh_page abc 3 = Ret (4, p1)
    /\ Part000.raw_qpage_push page_h_QUEUE_SIZE p1 de 2 = Ret (3, p2)
    /\ read_bytes (buf p2) 0 7 = [x61; x62; x63; xff; x64; x65; xff]
    /\ Part000.raw_qpage_pop page_h_QUEUE_SIZE (S fuel) p2 0
       = Ret (mkCSlice 3 (Some 0) READ_SUCCESS, p3)
    /\ slice_bytes p3 (mkCSlice 3 (Some 0) READ_SUCCESS) = abc
    /\ Part000.raw_qpage_pop page_h_QUEUE_SIZE (S fuel) p3 (0 + (3 + 1))
       = Ret (mkCSlice 2 (Some 4) READ_SUCCESS, p4)
    /\ slice_bytes p4 (mkCSlice 2 (Some 4) READ_SUCCESS) = de
    /\ Part000.raw_qpage_pop page_h_QUEUE_SIZE (S fuel) p4 (4 + (2 + 1))
       = Ret (mkCSlice 0 None READ_EMPTY, p5).
Proof.
  do 5 eexists. repeat split; reflexivity.
Qed.

(** page.c does the same. *)
Lemma pagec_two_messages (fuel : nat) :
  exists p1 p2 p3 p4 p5,
    PageC.raw_qpage_push page_c_QUEUE_SIZE fresh_page abc 3 = Ret (4, p1)
    /\ PageC.raw_qpage_push page_c_QUEUE_SIZE p1 de 2 = Ret (3, p2)
    /\ read_bytes (buf p2) 0 7 = [x61; x62; x63; xff; x64; x65; xff]
    /\ PageC.raw_qpage_pop page_c_QUEUE_SIZE (S fuel) p2 0
       = Ret (mkCSlice 3 (Some 0) READ_SUCCESS, p3)
    /\ PageC.raw_qpage_pop page_c_QUEUE_SIZE (S fuel) p3 4
       = Ret (mkCSlice 2 (Some 4) READ_SUCCESS, p4)
    /\ PageC.raw_qpage_pop page_c_QUEUE_SIZE (S fuel) p4 7
       = Ret (mkCSlice 0 None READ_EMPTY, p5).
Proof.
  do 5 eexists. repeat split; reflexivity.
Qed.

(** ** C7: nothing past the cursor *)

(** C7, as amended.  On a page with no writer in flight whose cached end is
    not ahead of the write index, the pop at the cursor equal to the write
    index returns [READ_EMPTY] with [len] 0 and a null pointer, and leaves
    the write index in [last_safe_write_idx]: in part_000 for every such
    cursor, in page.c (which tests [end == start_byte] after the clamp) for
    every such cursor that is not beyond the arena,
    [start_byte <= QUEUE_SIZE]. *)
Theorem pop_at_write_index_is_empty (QS : Z) (p : RawQPage) (fuel : nat) (c : Z) :
  quiescent p ->
  c = write_index (write_idx_lock p) ->
  last_safe_write_idx p <= c ->
  Part000.raw_qpage_pop QS (S fuel) p c
  = Ret (mkCSlice 0 None READ_EMPTY, set_last_safe_write_idx p c)
  /\ (c <= QS ->
      PageC.raw_qpage_pop QS (S fuel) p c
      = Ret (mkCSlice 0 None READ_EMPTY, set_last_safe_write_idx p c)).
Proof.
  intros Hq Hc Hsafe. rewrite (quiescent_write_index p Hq) in Hc. subst c.
  split.
  - apply part000_pop_empty with (E := clamp QS (write_idx_lock p)).
    + now apply part000_get_idx_refresh.
    + unfold clamp. destruct (Z.ltb_spec QS (write_idx_lock p)); lia.
  - intros Hin. apply pagec_pop_empty with (E := clamp QS (write_idx_lock p)).
    + now apply pagec_get_idx_refresh.
    + now apply clamp_le.
Qed.

(** C7 on a fresh page, cursor 0, with the [QUEUE_SIZE] of each file. *)
Lemma pop_at_write_index_is_empty_fresh :
  Part000.raw_qpage_pop page_h_QUEUE_SIZE 1 fresh_page 0
  = Ret (mkCSlice 0 None READ_EMPTY, set_last_safe_write_idx fresh_page 0)
  /\ PageC.raw_qpage_pop page_c_QUEUE_SIZE 1 fresh_page 0
     = Ret (mkCSlice 0 None READ_EMPTY, set_last_safe_write_idx fresh_page 0).
Proof.
  assert (Hq : quiescent fresh_page) by (apply quiescent_small; cbn; lia).
  assert (Hs : last_safe_write_idx fresh_page <= 0) by (cbn; lia).
  split.
  - exact (proj1 (pop_at_write_index_is_empty page_h_QUEUE_SIZE fresh_page 0 0
                    Hq eq_refl Hs)).
  - apply (proj2 (pop_at_write_index_is_empty page_c_QUEUE_SIZE fresh_page 0 0
                    Hq eq_refl Hs)).
    unfold page_c_QUEUE_SIZE. lia.
Defined.

(** The bound on the cursor is needed in page.c.  A push that returns
    PAGE_FULL leaves the write index advanced past the arena: with
    [QUEUE_SIZE] 16, a 14-byte push and then a 4-byte push of page.c leave
    a page with no writer in flight, write index 20 and cached end 0.  The
    pop of page.c at cursor 20 clamps [end] to 16, fails [end == start_byte]
    and reads [buf[20]], outside the array: it does not return
    [READ_EMPTY], where part_000 ([end <= start_byte]) does.  The same
    holds with page.c's own [QUEUE_SIZE], at the write index any push
    leaves on the page with one byte left. *)
Lemma pagec_pop_at_write_index_past_arena :
  exists p1 p2,
    PageC.raw_qpage_push 16 fresh_page fourteen 14 = Ret (15, p1)
    /\ PageC.raw_qpage_push 16 p1 abcd 4 = Ret (WRITE_PAGE_FULL, p2)
    /\ quiescent p2
    /\ write_index (write_idx_lock p2) = 20
    /\ last_safe_write_idx p2 <= 20
    /\ (forall fuel,
          PageC.raw_qpage_pop 16 (S fuel) p2 20 = Undefined
          /\ ~ (exists cs p3,
                  PageC.raw_qpage_pop 16 (S fuel) p2 20 = Ret (cs, p3)
                  /\ read_status cs = READ_EMPTY)
          /\ Part000.raw_qpage_pop 16 (S fuel) p2 20
             = Ret (mkCSlice 0 None READ_EMPTY, set_last_safe_write_idx p2 20))
    /\ exists p3,
        PageC.raw_qpage_push page_c_QUEUE_SIZE
          (one_byte_left page_c_QUEUE_SIZE) abcd 4
        = Ret (WRITE_PAGE_FULL, p3)
        /\ quiescent p3
        /\ write_index (write_idx_lock p3) = page_c_QUEUE_SIZE + 4
        /\ last_safe_write_idx p3 <= page_c_QUEUE_SIZE + 4
        /\ forall fuel,
            PageC.raw_qpage_pop page_c_QUEUE_SIZE (S fuel) p3
              (page_c_QUEUE_SIZE + 4) = Undefined.
Proof.
  do 2 eexists.
  split; [reflexivity|]. split; [reflexivity|].
  split; [apply quiescent_small; vm_compute; split; [discriminate|reflexivity]|].
  split; [reflexivity|]. split; [vm_compute; discriminate|].
  split.
  - intros fuel. split; [reflexivity|]. split; [|reflexivity].
    intros (cs & p3 & H & _).
    change (PageC.raw_qpage_pop 16 (S fuel) _ 20)
      with (@Undefined (CSlice * RawQPage)) in H.
    discriminate H.
  - eexists.
    split; [reflexivity|].
    split; [apply quiescent_small; vm_compute; split; [discriminate|reflexivity]|].
    split; [reflexivity|]. split; [vm_compute; discriminate|].
    intros fuel. reflexivity.
Qed.

(** ** C8: the cached end *)

(** C8, as amended.  From a page with no writer in flight whose
    [last_safe_write_idx] is at most the write index
    ([safe_end_bounded], true of a fresh page), after any number of pushes
    and pops run one after the other, each push keeping the write index
    inside its 56-bit field, [last_safe_write_idx] has not decreased and
    the page is [safe_end_bounded] again: no writer in flight, and
    [last_safe_write_idx] at most the write index.  In both files. *)
Theorem safe_end_never_decreases (QS : Z) (p p' : RawQPage) :
  0 < QS < 2 ^ 31 ->
  safe_end_bounded p ->
  part000_calls QS p p' \/ pagec_calls QS p p' ->
  last_safe_write_idx p <= last_safe_write_idx p'
  /\ safe_end_bounded p'.
Proof.
  intros HQ Hinv [Hcalls|Hcalls];
    induction Hcalls as [|p p' p'' _ IH Hcall];
    try (split; [lia | exact Hinv]);
    destruct (IH Hinv) as [Hle Hinv'].
  - destruct (safe_end_call QS p' p'' HQ Hinv' (or_introl Hcall)).
    split; [lia | assumption].
  - destruct (safe_end_call QS p' p'' HQ Hinv' (or_intror Hcall)).
    split; [lia | assumption].
Qed.

(** The amended C8 from a fresh page, through a push of "abc" and a pop at
    cursor 0. *)
Lemma safe_end_never_decreases_abc :
  let p1 := committed fresh_page abc 3 in
  let p2 := set_last_safe_write_idx p1 4 in
  last_safe_write_idx fresh_page <= last_safe_write_idx p2
  /\ safe_end_bounded p2.
Proof.
  cbv zeta.
  apply (safe_end_never_decreases page_h_QUEUE_SIZE fresh_page).
  - unfold page_h_QUEUE_SIZE. lia.
  - split; [apply quiescent_small; cbn; lia | vm_compute; discriminate].
  - left. apply calls_more with (p' := committed fresh_page abc 3).
    + apply calls_more with (p' := fresh_page); [apply calls_none|].
      apply call_push with (msg := abc) (n := 3) (r := 4).
      * vm_compute. intuition discriminate.
      * vm_compute. reflexivity.
      * reflexivity.
    + apply call_pop with (fuel := 1%nat) (start_byte := 0)
                          (cs := mkCSlice 3 (Some 0) READ_SUCCESS).
      reflexivity.
Defined.

(** C8 as stated fails once a push carries out of the write-index field.
    After a push of four bytes and a pop, [last_safe_write_idx] is 5.  A
    push of length [2 ^ 56 - 6] then leaves the write index at 0, below it;
    a push of length [2 ^ 64 - 6] leaves the whole state word at 0, and the
    pop at cursor 5 that follows stores 0 over the 5. *)
Lemma safe_end_after_index_wraps :
  exists p1 p2 cs,
    Part000.raw_qpage_push page_h_QUEUE_SIZE fresh_page abcd 4 = Ret (5, p1)
    /\ Part000.raw_qpage_pop page_h_QUEUE_SIZE 1 p1 0 = Ret (cs, p2)
    /\ last_safe_write_idx p2 = 5
    /\ (exists p3,
          Part000.raw_qpage_push page_h_QUEUE_SIZE p2 [] (2 ^ 56 - 6)
          = Ret (WRITE_PAGE_FULL, p3)
          /\ last_safe_write_idx p3 = 5
          /\ write_index (write_idx_lock p3) = 0
          /\ ~ last_safe_write_idx p3 <= write_index (write_idx_lock p3))
    /\ (exists p3 p4 cs',
          Part000.raw_qpage_push page_h_QUEUE_SIZE p2 [] (2 ^ 64 - 6)
          = Ret (WRITE_PAGE_FULL, p3)
          /\ Part000.raw_qpage_pop page_h_QUEUE_SIZE 1 p3 5 = Ret (cs', p4)
          /\ last_safe_write_idx p3 = 5
          /\ last_safe_write_idx p4 = 0
          /\ ~ last_safe_write_idx p3 <= last_safe_write_idx p4).
Proof.
  do 3 eexists. repeat split; try reflexivity.
  - eexists. repeat split; try reflexivity. vm_compute. intros H. now apply H.
  - do 3 eexists. repeat split; try reflexivity.
    vm_compute. intros H. now apply H.
Qed.

(** ** C9: the empty message *)




(** ** C10: what a full push leaves behind *)

(** C10, as amended.  When a push returns [WRITE_PAGE_FULL] and
    [write index + len + 1 < QUEUE_MAGIC_NUM], the write index has advanced
    by [len + 1] (and is at least [QUEUE_SIZE]), the writer count and
    [last_safe_write_idx] are what they were, and no arena byte has changed
    but, at most, the byte at the reserved start, which is then 0xFD.  In
    both files. *)
Theorem push_full_leaves_reservation (QS : Z) (p : RawQPage) (msg : list byte)
  (n : Z) (p' : RawQPage) :
  0 < QS < 2 ^ 31 ->
  size_t_range (write_idx_lock p) ->
  size_t_range n ->
  write_index (write_idx_lock p) + n + 1 < QUEUE_MAGIC_NUM ->
  Part000.raw_qpage_push QS p msg n = Ret (WRITE_PAGE_FULL, p')
  \/ PageC.raw_qpage_push QS p msg n = Ret (WRITE_PAGE_FULL, p') ->
  write_index (write_idx_lock p') = write_index (write_idx_lock p) + n + 1
  /\ QS <= write_index (write_idx_lock p')
  /\ writer_count (write_idx_lock p') = writer_count (write_idx_lock p)
  /\ last_safe_write_idx p' = last_safe_write_idx p
  /\ (forall i, i <> write_index (write_idx_lock p) -> buf p' i = buf p i)
  /\ (buf p' (write_index (write_idx_lock p)) = buf p (write_index (write_idx_lock p))
      \/ buf p' (write_index (write_idx_lock p)) = xfd).
Proof.
  intros HQ Hs Hn Hb Hpush.
  pose proof (write_index_range (write_idx_lock p)) as Hw.
  assert (H0n : 0 <= n) by (apply Hn).
  destruct (advance_fields _ n Hs H0n Hb) as (Hwrap & Hwi & Hwc).
  assert (Hp' := push_full_page QS p msg n p' HQ Hn Hpush).
  destruct Hp' as (stamp & -> & Hge).
  rewrite wrap_below_magic in Hge by lia.
  unfold abandoned. cbn [write_idx_lock last_safe_write_idx buf].
  rewrite Hwi, Hwc. repeat split; try lia.
  - intros i Hi. destruct stamp; [now apply upd_other | reflexivity].
  - destruct stamp; [right; apply upd_same | now left].
Qed.

(** The amended C10 on the 16-byte arena: the 4-byte push after the 14-byte
    one. *)
Lemma push_full_leaves_reservation_sixteen :
  let p := committed fresh_page (repeat x61 14) 14 in
  exists p',
    Part000.raw_qpage_push 16 p abcd 4 = Ret (WRITE_PAGE_FULL, p')
    /\ write_index (write_idx_lock p') = 15 + 4 + 1
    /\ 16 <= write_index (write_idx_lock p')
    /\ writer_count (write_idx_lock p') = 0
    /\ last_safe_write_idx p' = 0
    /\ (forall i, i <> 15 -> buf p' i = buf p i)
    /\ (buf p' 15 = buf p 15 \/ buf p' 15 = xfd).
Proof.
  cbv zeta.
  exists (abandoned true (committed fresh_page (repeat x61 14) 14) 4).
  split; [reflexivity|].
  apply (push_full_leaves_reservation 16
           (committed fresh_page (repeat x61 14) 14) abcd 4).
  - lia.
  - vm_compute. intuition discriminate.
  - vm_compute. intuition discriminate.
  - vm_compute. reflexivity.
  - left. reflexivity.
Defined.

(** C10 as stated fails for a push of length [2 ^ 56 - 1] on a fresh page:
    it returns [WRITE_PAGE_FULL], the write index is 0 before and after,
    and the writer count goes from 0 to 1. *)
Lemma push_full_carries_into_writer_count :
  size_t_range (2 ^ 56 - 1)
  /\ exists p',
      Part000.raw_qpage_push page_h_QUEUE_SIZE fresh_page [] (2 ^ 56 - 1)
      = Ret (WRITE_PAGE_FULL, p')
      /\ write_index (write_idx_lock fresh_page) = 0
      /\ write_index (write_idx_lock p') = 0
      /\ write_index (write_idx_lock p')
         <> write_index (write_idx_lock fresh_page) + (2 ^ 56 - 1) + 1
      /\ writer_count (write_idx_lock fresh_page) = 0
      /\ writer_count (write_idx_lock p') = 1.
Proof.
  split; [vm_compute; intuition discriminate|].
  eexists. split; [reflexivity|].
  repeat split; try reflexivity. vm_compute. discriminate.
Qed.

(** * Further properties of the code *)

(** ** Auxiliary facts *)

Lemma wrap_id x : 0 <= x < 2 ^ 64 -> wrap x = x.
Proof. intros H. apply Z.mod_small. exact H. Qed.

Lemma writer_count_zero s : 0 <= s -> (writer_count s = 0 <-> s < 2 ^ 56).
Proof.
  intros Hs. rewrite writer_count_div. split; intros H.
  - apply Z.div_small_iff in H; lia.
  - apply Z.div_small. lia.
Qed.

Lemma Zleb_true a b : a <= b -> (a <=? b) = true.
Proof. apply Z.leb_le. Qed.

Lemma Zleb_false a b : b < a -> (a <=? b) = false.
Proof. apply Z.leb_gt. Qed.

Lemma Zltb_true a b : a < b -> (a <? b) = true.
Proof. apply Z.ltb_lt. Qed.

Lemma Zltb_false a b : b <= a -> (a <? b) = false.
Proof. apply Z.ltb_ge. Qed.

Lemma Zgeb_true a b : b <= a -> (a >=? b) = true.
Proof. intros H. rewrite Z.geb_leb. now apply Z.leb_le. Qed.

Lemma Zgeb_false a b : a < b -> (a >=? b) = false.
Proof. intros H. rewrite Z.geb_leb. now apply Z.leb_gt. Qed.

Lemma clamp_min QS e : clamp QS e = Z.min QS e.
Proof. unfold clamp. destruct (Z.ltb_spec QS e); lia. Qed.

Lemma read_bytes_avoids n : forall b from (x : byte),
  (forall j, from <= j < from + Z.of_nat n -> b j <> x) ->
  ~ In x (read_bytes b from n).
Proof.
  induction n as [|n IH]; intros b from x Hall; cbn [read_bytes In]; [tauto|].
  intros [E|Hin].
  - apply (Hall from); [lia | exact E].
  - apply (IH b (from + 1) x); [intros j Hj; apply Hall; lia | exact Hin].
Qed.

Ltac open_page :=
  cbv beta iota delta
    [atomic_fetch_add_write_idx_lock atomic_fetch_sub_write_idx_lock
     set_write_idx_lock set_last_safe_write_idx set_buf
     buf_store buf_load memcpy_buf load_size_t bind in_buf
     write_idx_lock last_safe_write_idx buf is_ready] in *;
  cbn [write_idx_lock last_safe_write_idx buf is_ready] in *.

(** ** The arena after a committed push *)

Lemma committed_body p msg n j :
  0 <= n <= Z.of_nat (length msg) ->
  write_index (write_idx_lock p) <= j < write_index (write_idx_lock p) + n ->
  buf (committed p msg n) j
  = nth (Z.to_nat (j - write_index (write_idx_lock p))) msg x00.
Proof.
  intros Hn Hj. cbn [committed buf].
  rewrite upd_other by lia.
  replace j with (write_index (write_idx_lock p)
                  + Z.of_nat (Z.to_nat (j - write_index (write_idx_lock p))))
    at 1 by lia.
  rewrite write_bytes_nth by (rewrite length_firstn; lia).
  rewrite nth_firstn.
  destruct (Nat.ltb_spec (Z.to_nat (j - write_index (write_idx_lock p)))
              (Z.to_nat n)); [reflexivity | lia].
Qed.

Lemma committed_terminator p msg n :
  buf (committed p msg n) (write_index (write_idx_lock p) + n)
  = VALUE_TERM_BYTE.
Proof. cbn [committed buf]. apply upd_same. Qed.

Lemma committed_outside p msg n j :
  0 <= n <= Z.of_nat (length msg) ->
  j < write_index (write_idx_lock p) \/
  write_index (write_idx_lock p) + n < j ->
  buf (committed p msg n) j = buf p j.
Proof.
  intros Hn Hj. cbn [committed buf].
  rewrite upd_other by lia.
  apply write_bytes_outside. rewrite length_firstn. lia.
Qed.

Lemma committed_read_firstn p msg n :
  0 <= n <= Z.of_nat (length msg) ->
  read_bytes (buf (committed p msg n)) (write_index (write_idx_lock p))
    (Z.to_nat n)
  = firstn (Z.to_nat n) msg.
Proof.
  intros Hn. cbn [committed buf].
  assert (E : length (firstn (Z.to_nat n) msg) = Z.to_nat n)
    by (rewrite length_firstn; lia).
  rewrite (read_bytes_ext (Z.to_nat n) _
             (write_bytes (buf p) (write_index (write_idx_lock p))
                (firstn (Z.to_nat n) msg))).
  - pose proof (read_write_bytes (firstn (Z.to_nat n) msg) (buf p)
                  (write_index (write_idx_lock p))) as R.
    now rewrite E in R.
  - intros j Hj. apply upd_other. lia.
Qed.

Lemma committed_read_back p msg :
  read_bytes (buf (committed p msg (Z.of_nat (length msg))))
    (write_index (write_idx_lock p)) (length msg) = msg.
Proof.
  pose proof (committed_read_firstn p msg (Z.of_nat (length msg))
                ltac:(lia)) as R.
  now rewrite Nat2Z.id, firstn_all in R.
Qed.

Lemma no_terminator_nth (m : list byte) k :
  ~ In VALUE_TERM_BYTE m -> (k < length m)%nat ->
  nth k m x00 <> VALUE_TERM_BYTE.
Proof.
  intros Hno Hk E. apply Hno. rewrite <- E. now apply nth_In.
Qed.

Lemma committed_quiescent QS p msg n :
  0 < QS < 2 ^ 31 -> quiescent p -> 0 <= n ->
  write_idx_lock p + n < QS - 1 ->
  quiescent (committed p msg n) /\
  write_idx_lock (committed p msg n) = write_idx_lock p + n + 1.
Proof.
  intros HQ Hq Hn Hfit. pose proof (quiescent_bound p Hq) as Hs.
  assert (E : write_idx_lock (committed p msg n) = write_idx_lock p + n + 1).
  { cbn [committed write_idx_lock]. apply wrap_id. lia. }
  split; [|exact E]. apply quiescent_small. rewrite E. lia.
Qed.

Lemma committed_frame QS p m :
  0 < QS < 2 ^ 31 ->
  quiescent p ->
  ~ In VALUE_TERM_BYTE m ->
  hd_error m <> Some xfd ->
  write_idx_lock p + Z.of_nat (length m) < QS - 1 ->
  buf (committed p m (Z.of_nat (length m))) (write_idx_lock p) <> xfd /\
  (forall j, write_idx_lock p <= j < write_idx_lock p + Z.of_nat (length m) ->
     buf (committed p m (Z.of_nat (length m))) j <> VALUE_TERM_BYTE) /\
  buf (committed p m (Z.of_nat (length m)))
    (write_idx_lock p + Z.of_nat (length m)) = VALUE_TERM_BYTE.
Proof.
  intros HQ Hq Hno Hhd Hfit.
  pose proof (quiescent_bound p Hq) as Hs.
  pose proof (quiescent_write_index p Hq) as Hwi.
  split; [|split].
  - destruct m as [|x m'].
    + pose proof (committed_terminator p [] (Z.of_nat (length (@nil byte)))) as E.
      cbn [length Z.of_nat] in *. rewrite Z.add_0_r, Hwi in E.
      rewrite E. discriminate.
    + rewrite committed_body by (cbn [length] in *; lia).
      rewrite Hwi, Z.sub_diag. cbn [Z.to_nat nth].
      intros E. apply Hhd. cbn [hd_error]. now rewrite E.
  - intros j Hj. rewrite committed_body by lia.
    apply no_terminator_nth; [exact Hno | lia].
  - rewrite <- Hwi at 1. apply committed_terminator.
Qed.

(** ** Every way a push and a pop can return *)

Lemma push_returned QS p msg n r p' :
  0 < QS < 2 ^ 31 -> 0 <= n ->
  Part000.raw_qpage_push QS p msg n = Ret (r, p') \/
  PageC.raw_qpage_push QS p msg n = Ret (r, p') ->
  (QS - 1 <= wrap (write_index (write_idx_lock p) + n) /\
   r = WRITE_PAGE_FULL /\
   exists stamp, p' = abandoned stamp p n) \/
  (write_index (write_idx_lock p) + n < QS - 1 /\
   n <= Z.of_nat (length msg) /\
   r = n + 1 /\
   p' = committed p msg n).
Proof.
  intros HQ Hn H.
  pose proof (write_index_range (write_idx_lock p)) as Hs.
  destruct (Z_le_gt_dec (QS - 1) (wrap (write_index (write_idx_lock p) + n)))
    as [Hfull|Hfit].
  - left. split; [exact Hfull|].
    destruct H as [H|H];
      [rewrite part000_push_full in H by lia
      |rewrite pagec_push_full in H by lia];
      inversion H; (split; [reflexivity | eexists; reflexivity]).
  - right.
    assert (Hok : n <= Z.of_nat (length msg) /\
                  write_index (write_idx_lock p) + n <= QS).
    { destruct H as [H|H];
        [unfold Part000.raw_qpage_push in H | unfold PageC.raw_qpage_push in H];
        destruct p as [i s e b]; open_page; fold (write_index s) in *;
        rewrite Zgeb_false in H by lia;
        (destruct (Z.leb_spec n (Z.of_nat (length msg)));
         [|cbn [andb] in H; discriminate]);
        (destruct (Z.leb_spec (write_index s + n) QS); [lia|]);
        rewrite andb_false_r in H; discriminate. }
    destruct Hok as [Hm Hle].
    rewrite wrap_id in Hfit by lia.
    destruct H as [H|H];
      [rewrite part000_push_fits in H by (try rewrite size_t_modulus_eq; lia)
      |rewrite pagec_push_fits in H by (try rewrite size_t_modulus_eq; lia)];
      rewrite wrap_id, to_int_small in H by lia;
      inversion H; repeat split; auto; lia.
Qed.

Lemma scan_result QS p e :
  QS < 2 ^ 64 ->
  forall n i k,
    Part000.scan QS n p i e = Ret k ->
    i <= k /\ forall j, i <= j < k -> buf p j <> VALUE_TERM_BYTE.
Proof.
  intros HQ n. induction n as [|n IH]; intros i k H; cbn [Part000.scan] in H.
  - inversion H. split; [lia | intros j Hj; lia].
  - destruct (Z.ltb_spec i e) as [Hlt|Hge];
      [|inversion H; split; [lia | intros j Hj; lia]].
    unfold buf_load, in_buf in H.
    destruct (Z.leb_spec 0 i) as [H0|]; [|discriminate].
    destruct (Z.ltb_spec i QS) as [Hin|]; [|discriminate].
    cbn [andb bind] in H.
    destruct (Byte.eqb (buf p i) VALUE_TERM_BYTE) eqn:E.
    + inversion H. split; [lia | intros j Hj; lia].
    + rewrite wrap_id in H by lia.
      destruct (IH _ _ H) as [Hle Hno]. split; [lia|].
      intros j Hj. destruct (Z.eq_dec j i) as [->|Hne].
      * now apply Byte.eqb_false.
      * apply Hno. lia.
Qed.

Lemma part000_pop_returned QS fuel p c cs p' :
  QS < 2 ^ 64 -> 0 <= c ->
  Part000.raw_qpage_pop QS fuel p c = Ret (cs, p') ->
  exists e,
    Part000._get_write_idx_spin QS fuel p c = Ret (e, p') /\
    ((e <= c /\ cs = mkCSlice 0 None READ_EMPTY) \/
     (c < e /\ c < QS /\ buf p' c = xfd /\ cs = mkCSlice 0 None READ_FINISHED) \/
     (c < e /\ c < QS /\ buf p' c <> xfd /\
      exists k, c <= k < QS /\
        (forall j, c <= j < k -> buf p' j <> VALUE_TERM_BYTE) /\
        ((buf p' k <> VALUE_TERM_BYTE /\
          cs = mkCSlice 0 None Part000.READ_ERROR) \/
         (buf p' k = VALUE_TERM_BYTE /\
          cs = mkCSlice (k - c) (Some c) READ_SUCCESS)))).
Proof.
  intros HQ Hc H. unfold Part000.raw_qpage_pop in H.
  destruct (Part000._get_write_idx_spin QS fuel p c) as [[e q]| |];
    cbn [bind] in H; try discriminate.
  exists e.
  destruct (Z.leb_spec e c) as [Hle|Hlt].
  { inversion H. split; [reflexivity | left; now split]. }
  unfold buf_load at 1 in H. unfold in_buf in H.
  destruct (Z.leb_spec 0 c); [|lia].
  destruct (Z.ltb_spec c QS) as [Hin|]; [|discriminate].
  cbn [andb bind] in H.
  destruct (Byte.eqb (buf q c) xfd) eqn:Efd.
  { inversion H. subst. split; [reflexivity|]. right; left.
    repeat split; try assumption. now apply Byte.byte_dec_bl. }
  destruct (Part000.scan QS (Z.to_nat (e - c)) q c e) as [k| |] eqn:Es;
    cbn [bind] in H; try discriminate.
  destruct (scan_result QS q e HQ _ _ _ Es) as [Hk Hno].
  unfold buf_load, in_buf in H.
  destruct (Z.leb_spec 0 k); [|lia].
  destruct (Z.ltb_spec k QS) as [Hkin|]; [|discriminate].
  cbn [andb bind] in H.
  destruct (Byte.eqb (buf q k) VALUE_TERM_BYTE) eqn:Et; cbn [negb] in H;
    inversion H; subst; (split; [reflexivity|]); right; right;
    (repeat split; try assumption; try (now apply Byte.eqb_false));
    exists k; (repeat split; try assumption; try lia).
  - right. split; [now apply Byte.byte_dec_bl|].
    now rewrite wrap_id by lia.
  - left. split; [now apply Byte.eqb_false | reflexivity].
Qed.

Lemma pagec_pop_returned QS fuel p c cs p' :
  QS < 2 ^ 64 -> 0 <= c ->
  PageC.raw_qpage_pop QS fuel p c = Ret (cs, p') ->
  exists e,
    PageC._get_write_idx_spin QS fuel p c = Ret (e, p') /\
    ((e = c /\ cs = mkCSlice 0 None READ_EMPTY) \/
     (e <> c /\ c < QS /\ buf p' c = xfd /\
      cs = mkCSlice 0 None READ_FINISHED) \/
     (e <> c /\ c < QS /\ buf p' c <> xfd /\
      exists k, c <= k < QS /\
        (forall j, c <= j < k -> buf p' j <> VALUE_TERM_BYTE) /\
        cs = mkCSlice (k - c) (Some c) READ_SUCCESS)).
Proof.
  intros HQ Hc H. unfold PageC.raw_qpage_pop in H.
  destruct (PageC._get_write_idx_spin QS fuel p c) as [[e q]| |];
    cbn [bind] in H; try discriminate.
  exists e.
  destruct (Z.eqb_spec e c) as [He|Hne].
  { inversion H. split; [reflexivity | left; now split]. }
  unfold buf_load at 1 in H. unfold in_buf in H.
  destruct (Z.leb_spec 0 c); [|lia].
  destruct (Z.ltb_spec c QS) as [Hin|]; [|discriminate].
  cbn [andb bind] in H.
  destruct (Byte.eqb (buf q c) xfd) eqn:Efd.
  { inversion H. subst. split; [reflexivity|]. right; left.
    repeat split; try assumption. now apply Byte.byte_dec_bl. }
  rewrite pagec_scan_eq in H.
  destruct (Part000.scan QS (Z.to_nat (e - c)) q c e) as [k| |] eqn:Es;
    cbn [bind] in H; try discriminate.
  destruct (scan_result QS q e HQ _ _ _ Es) as [Hk Hno].
  unfold buf_load, in_buf in H.
  destruct (Z.leb_spec 0 k); [|lia].
  destruct (Z.ltb_spec k QS) as [Hkin|]; [|discriminate].
  cbn [andb bind len ptr read_status] in H.
  inversion H; subst. split; [reflexivity|]. right; right.
  repeat split; try assumption; try (now apply Byte.eqb_false).
  exists k. repeat split; try assumption; try lia.
  now rewrite wrap_id by lia.
Qed.

(** ** The default framing: [raw_qpage_push] and [raw_qpage_pop] *)

(** Round trip at any position, in both files.  On a page with no writer in
    flight whose safe end is not ahead of its write index, a message that
    holds no 0xFF, does not start with 0xFD and fits is pushed with return
    value [len + 1]; the pop at the old write index then returns SUCCESS,
    the length and the bytes of the message, and caches the new write
    index as the safe end. *)
Theorem push_pop_round_trip_anywhere (QUEUE_SIZE : Z) (p : RawQPage)
  (m : list byte) (fuel : nat) :
  0 < QUEUE_SIZE < 2 ^ 31 ->
  quiescent p ->
  last_safe_write_idx p <= write_idx_lock p ->
  ~ In VALUE_TERM_BYTE m ->
  hd_error m <> Some xfd ->
  write_idx_lock p + Z.of_nat (length m) < QUEUE_SIZE - 1 ->
  exists p1 p2 cs,
    Part000.raw_qpage_push QUEUE_SIZE p m (Z.of_nat (length m))
    = Ret (Z.of_nat (length m) + 1, p1) /\
    PageC.raw_qpage_push QUEUE_SIZE p m (Z.of_nat (length m))
    = Ret (Z.of_nat (length m) + 1, p1) /\
    Part000.raw_qpage_pop QUEUE_SIZE (S fuel) p1 (write_idx_lock p)
    = Ret (cs, p2) /\
    PageC.raw_qpage_pop QUEUE_SIZE (S fuel) p1 (write_idx_lock p)
    = Ret (cs, p2) /\
    cs = mkCSlice (Z.of_nat (length m)) (Some (write_idx_lock p)) READ_SUCCESS /\
    slice_bytes p2 cs = m /\
    last_safe_write_idx p2 = write_idx_lock p1.
Proof.
  intros HQ Hq Hsafe Hno Hhd Hfit.
  pose proof (quiescent_bound p Hq) as Hs.
  pose proof (quiescent_write_index p Hq) as Hwi.
  set (n := Z.of_nat (length m)) in *.
  assert (Hn : 0 <= n) by (unfold n; lia).
  destruct (committed_quiescent QUEUE_SIZE p m n HQ Hq Hn Hfit) as [Hq1 Hs1].
  destruct (committed_frame QUEUE_SIZE p m HQ Hq Hno Hhd Hfit)
    as (Hfd & Hbody & Hterm). fold n in Hfd, Hbody, Hterm.
  exists (committed p m n),
    (set_last_safe_write_idx (committed p m n) (write_idx_lock p + n + 1)),
    (mkCSlice n (Some (write_idx_lock p)) READ_SUCCESS).
  split; [|split; [|split; [|split; [|split; [|split]]]]].
  - rewrite part000_push_fits by (try rewrite size_t_modulus_eq; lia).
    now rewrite wrap_id, to_int_small by lia.
  - rewrite pagec_push_fits by (try rewrite size_t_modulus_eq; lia).
    now rewrite wrap_id, to_int_small by lia.
  - replace n with (write_idx_lock p + n - write_idx_lock p) at 2 by lia.
    apply part000_pop_success with (E := write_idx_lock p + n + 1);
      try assumption; try (rewrite size_t_modulus_eq; lia); try lia.
    rewrite part000_get_idx_refresh
      by (try exact Hq1; cbn [committed last_safe_write_idx]; lia).
    rewrite Hs1. now rewrite clamp_le by lia.
  - replace n with (write_idx_lock p + n - write_idx_lock p) at 2 by lia.
    apply pagec_pop_success with (E := write_idx_lock p + n + 1);
      try assumption; try (rewrite size_t_modulus_eq; lia); try lia.
    rewrite pagec_get_idx_refresh by (cbn [committed last_safe_write_idx]; lia).
    rewrite Hs1. now rewrite clamp_le by lia.
  - reflexivity.
  - unfold slice_bytes. cbn [ptr len set_last_safe_write_idx buf].
    unfold n. rewrite Nat2Z.id. rewrite <- Hwi.
    exact (committed_read_back p m).
  - cbn [set_last_safe_write_idx last_safe_write_idx]. now rewrite Hs1.
Qed.

Lemma push_pop_round_trip_anywhere_witness :
  exists p1 p2 cs,
    Part000.raw_qpage_push page_h_QUEUE_SIZE (committed fresh_page abc 3) de
      (Z.of_nat (length de))
    = Ret (Z.of_nat (length de) + 1, p1) /\
    PageC.raw_qpage_push page_h_QUEUE_SIZE (committed fresh_page abc 3) de
      (Z.of_nat (length de))
    = Ret (Z.of_nat (length de) + 1, p1) /\
    Part000.raw_qpage_pop page_h_QUEUE_SIZE 1 p1
      (write_idx_lock (committed fresh_page abc 3))
    = Ret (cs, p2) /\
    PageC.raw_qpage_pop page_h_QUEUE_SIZE 1 p1
      (write_idx_lock (committed fresh_page abc 3))
    = Ret (cs, p2) /\
    cs = mkCSlice (Z.of_nat (length de))
           (Some (write_idx_lock (committed fresh_page abc 3))) READ_SUCCESS /\
    slice_bytes p2 cs = de /\
    last_safe_write_idx p2 = write_idx_lock p1.
Proof.
  apply (push_pop_round_trip_anywhere page_h_QUEUE_SIZE
           (committed fresh_page abc 3) de O).
  - unfold page_h_QUEUE_SIZE. lia.
  - apply quiescent_small.
    change (write_idx_lock (committed fresh_page abc 3)) with 4. lia.
  - change (write_idx_lock (committed fresh_page abc 3)) with 4.
    cbn [committed last_safe_write_idx fresh_page]. lia.
  - intros [E|[E|[]]]; discriminate.
  - discriminate.
  - change (write_idx_lock (committed fresh_page abc 3)) with 4.
    unfold page_h_QUEUE_SIZE. cbn [de length]. lia.
Defined.

(** What a successful push changes, in both files.  When a push returns a
    value other than PAGE_FULL, that value is [len + 1]; [len] bytes could
    be read from the caller's buffer; the write index has advanced by
    [len + 1] and is inside the arena, the writer count is what it was; the
    arena holds the [len] message bytes from the old write index on,
    followed by 0xFF; every other arena byte, [is_ready] and the safe end
    are untouched. *)
Theorem push_success_frame (QUEUE_SIZE : Z) (p : RawQPage) (msg : list byte)
  (len r : Z) (p' : RawQPage) :
  0 < QUEUE_SIZE < 2 ^ 31 ->
  size_t_range (write_idx_lock p) ->
  0 <= len ->
  Part000.raw_qpage_push QUEUE_SIZE p msg len = Ret (r, p') \/
  PageC.raw_qpage_push QUEUE_SIZE p msg len = Ret (r, p') ->
  r <> WRITE_PAGE_FULL ->
  r = len + 1 /\
  len <= Z.of_nat (length msg) /\
  write_index (write_idx_lock p') = write_index (write_idx_lock p) + len + 1 /\
  write_index (write_idx_lock p') < QUEUE_SIZE /\
  writer_count (write_idx_lock p') = writer_count (write_idx_lock p) /\
  read_bytes (buf p') (write_index (write_idx_lock p)) (Z.to_nat len)
  = firstn (Z.to_nat len) msg /\
  buf p' (write_index (write_idx_lock p) + len) = VALUE_TERM_BYTE /\
  (forall j, j < write_index (write_idx_lock p) \/
             write_index (write_idx_lock p) + len < j ->
             buf p' j = buf p j) /\
  is_ready p' = is_ready p /\
  last_safe_write_idx p' = last_safe_write_idx p.
Proof.
  intros HQ Hr Hlen H Hnz.
  pose proof (write_index_range (write_idx_lock p)) as Hs.
  destruct (push_returned QUEUE_SIZE p msg len r p' HQ Hlen H)
    as [(_ & E & _)|(Hfit & Hm & -> & ->)]; [contradiction|].
  destruct (advance_fields (write_idx_lock p) len Hr Hlen
              ltac:(rewrite QUEUE_MAGIC_NUM_eq; lia)) as (_ & Ei & Ec).
  cbn [committed write_idx_lock is_ready last_safe_write_idx].
  rewrite Ei, Ec.
  split; [reflexivity|]. split; [exact Hm|].
  split; [reflexivity|]. split; [lia|]. split; [reflexivity|].
  split; [apply committed_read_firstn; lia|].
  split; [apply committed_terminator|].
  split; [intros j Hj; apply committed_outside; lia|].
  split; reflexivity.
Qed.

Lemma push_success_frame_witness :
  4 = 3 + 1 /\
  3 <= Z.of_nat (length abc) /\
  write_index (write_idx_lock (committed fresh_page abc 3))
  = write_index (write_idx_lock fresh_page) + 3 + 1 /\
  write_index (write_idx_lock (committed fresh_page abc 3)) < page_h_QUEUE_SIZE /\
  writer_count (write_idx_lock (committed fresh_page abc 3))
  = writer_count (write_idx_lock fresh_page) /\
  read_bytes (buf (committed fresh_page abc 3))
    (write_index (write_idx_lock fresh_page)) (Z.to_nat 3)
  = firstn (Z.to_nat 3) abc /\
  buf (committed fresh_page abc 3) (write_index (write_idx_lock fresh_page) + 3)
  = VALUE_TERM_BYTE /\
  (forall j, j < write_index (write_idx_lock fresh_page) \/
             write_index (write_idx_lock fresh_page) + 3 < j ->
             buf (committed fresh_page abc 3) j = buf fresh_page j) /\
  is_ready (committed fresh_page abc 3) = is_ready fresh_page /\
  last_safe_write_idx (committed fresh_page abc 3)
  = last_safe_write_idx fresh_page.
Proof.
  apply (push_success_frame page_h_QUEUE_SIZE fresh_page abc 3 4
           (committed fresh_page abc 3)).
  - unfold page_h_QUEUE_SIZE. lia.
  - unfold size_t_range. rewrite size_t_modulus_eq.
    cbn [fresh_page write_idx_lock]. lia.
  - lia.
  - left. reflexivity.
  - discriminate.
Defined.

(** A pop never writes the arena, the state word or [is_ready], in either
    file: it leaves the page as it was, or changes the cached safe end
    alone, to the state word it loaded, and that only when the old safe
    end was not past the cursor. *)
Theorem pop_changes_only_the_safe_end (QUEUE_SIZE : Z) (fuel : nat)
  (p : RawQPage) (start_byte : Z) (cs : CSlice) (p' : RawQPage) :
  Part000.raw_qpage_pop QUEUE_SIZE fuel p start_byte = Ret (cs, p') \/
  PageC.raw_qpage_pop QUEUE_SIZE fuel p start_byte = Ret (cs, p') ->
  buf p' = buf p /\
  write_idx_lock p' = write_idx_lock p /\
  is_ready p' = is_ready p /\
  (p' = p \/
   (last_safe_write_idx p <= start_byte /\
    last_safe_write_idx p' = write_idx_lock p)).
Proof.
  intros H.
  destruct (pop_page QUEUE_SIZE fuel p start_byte cs p' H) as [->|[Hc ->]];
    cbn [set_last_safe_write_idx buf write_idx_lock is_ready
           last_safe_write_idx];
    repeat split; auto.
Qed.

Lemma pop_changes_only_the_safe_end_witness :
  buf (set_last_safe_write_idx (committed fresh_page abc 3) 4)
  = buf (committed fresh_page abc 3) /\
  write_idx_lock (set_last_safe_write_idx (committed fresh_page abc 3) 4)
  = write_idx_lock (committed fresh_page abc 3) /\
  is_ready (set_last_safe_write_idx (committed fresh_page abc 3) 4)
  = is_ready (committed fresh_page abc 3) /\
  (set_last_safe_write_idx (committed fresh_page abc 3) 4
   = committed fresh_page abc 3 \/
   (last_safe_write_idx (committed fresh_page abc 3) <= 0 /\
    last_safe_write_idx (set_last_safe_write_idx (committed fresh_page abc 3) 4)
    = write_idx_lock (committed fresh_page abc 3))).
Proof.
  apply (pop_changes_only_the_safe_end page_h_QUEUE_SIZE 1
           (committed fresh_page abc 3) 0
           (mkCSlice 3 (Some 0) READ_SUCCESS)).
  left. reflexivity.
Defined.

(** What SUCCESS from part_000's pop guarantees about the arena: the slice
    points at the cursor; the byte [len] places after the cursor lies in
    the arena and is 0xFF; none of the [len] bytes of the slice is 0xFF;
    and the byte at the cursor is not 0xFD. *)
Theorem part000_pop_success_is_framed (QUEUE_SIZE : Z) (fuel : nat)
  (p : RawQPage) (start_byte : Z) (cs : CSlice) (p' : RawQPage) :
  QUEUE_SIZE < 2 ^ 64 ->
  0 <= start_byte ->
  Part000.raw_qpage_pop QUEUE_SIZE fuel p start_byte = Ret (cs, p') ->
  read_status cs = READ_SUCCESS ->
  ptr cs = Some start_byte /\
  0 <= len cs /\
  start_byte + len cs < QUEUE_SIZE /\
  buf p (start_byte + len cs) = VALUE_TERM_BYTE /\
  ~ In VALUE_TERM_BYTE (slice_bytes p' cs) /\
  length (slice_bytes p' cs) = Z.to_nat (len cs) /\
  buf p start_byte <> xfd.
Proof.
  intros HQ Hc H Hst.
  assert (Hbuf : buf p' = buf p).
  { destruct (pop_page QUEUE_SIZE fuel p start_byte cs p' (or_introl H))
      as [->|[_ ->]]; reflexivity. }
  destruct (part000_pop_returned QUEUE_SIZE fuel p start_byte cs p' HQ Hc H)
    as (e & _ & [(_ & ->)|[(_ & _ & _ & ->)|(_ & _ & Hfd & k & Hk & Hno & Hend)]]);
    try discriminate.
  destruct Hend as [(_ & ->)|(Hterm & ->)]; [discriminate|].
  rewrite Hbuf in *. unfold slice_bytes. cbn [ptr len]. rewrite Hbuf.
  replace (start_byte + (k - start_byte)) with k by lia.
  repeat split; try assumption; try lia.
  - apply read_bytes_avoids. intros j Hj. apply Hno. lia.
  - clear. generalize (Z.to_nat (k - start_byte)) as n. intros n.
    revert start_byte. induction n as [|n IH]; intros c; cbn [read_bytes length];
      [reflexivity | now rewrite IH].
Qed.

Lemma part000_pop_success_is_framed_witness :
  ptr (mkCSlice 3 (Some 0) READ_SUCCESS) = Some 0 /\
  0 <= len (mkCSlice 3 (Some 0) READ_SUCCESS) /\
  0 + len (mkCSlice 3 (Some 0) READ_SUCCESS) < page_h_QUEUE_SIZE /\
  buf (committed fresh_page abc 3) (0 + len (mkCSlice 3 (Some 0) READ_SUCCESS))
  = VALUE_TERM_BYTE /\
  ~ In VALUE_TERM_BYTE
      (slice_bytes (set_last_safe_write_idx (committed fresh_page abc 3) 4)
         (mkCSlice 3 (Some 0) READ_SUCCESS)) /\
  length (slice_bytes (set_last_safe_write_idx (committed fresh_page abc 3) 4)
            (mkCSlice 3 (Some 0) READ_SUCCESS))
  = Z.to_nat (len (mkCSlice 3 (Some 0) READ_SUCCESS)) /\
  buf (committed fresh_page abc 3) 0 <> xfd.
Proof.
  apply (part000_pop_success_is_framed page_h_QUEUE_SIZE 1
           (committed fresh_page abc 3) 0).
  - unfold page_h_QUEUE_SIZE. lia.
  - lia.
  - reflexivity.
  - reflexivity.
Defined.

(** The results part_000's pop can return: EMPTY, FINISHED or READ_ERROR,
    each with length 0 and a null pointer, or SUCCESS with a pointer to the
    cursor. *)
Theorem part000_pop_statuses (QUEUE_SIZE : Z) (fuel : nat) (p : RawQPage)
  (start_byte : Z) (cs : CSlice) (p' : RawQPage) :
  QUEUE_SIZE < 2 ^ 64 ->
  0 <= start_byte ->
  Part000.raw_qpage_pop QUEUE_SIZE fuel p start_byte = Ret (cs, p') ->
  cs = mkCSlice 0 None READ_EMPTY \/
  cs = mkCSlice 0 None READ_FINISHED \/
  cs = mkCSlice 0 None Part000.READ_ERROR \/
  (read_status cs = READ_SUCCESS /\ ptr cs = Some start_byte /\ 0 <= len cs).
Proof.
  intros HQ Hc H.
  destruct (part000_pop_returned QUEUE_SIZE fuel p start_byte cs p' HQ Hc H)
    as (e & _ & [(_ & ->)|[(_ & _ & _ & ->)|(_ & _ & _ & k & Hk & _ & Hend)]]);
    auto.
  destruct Hend as [(_ & ->)|(_ & ->)]; auto.
  right; right; right. cbn [read_status ptr len]. repeat split; lia.
Qed.

Lemma part000_pop_statuses_witness :
  mkCSlice 0 None Part000.READ_ERROR = mkCSlice 0 None READ_EMPTY \/
  mkCSlice 0 None Part000.READ_ERROR = mkCSlice 0 None READ_FINISHED \/
  mkCSlice 0 None Part000.READ_ERROR = mkCSlice 0 None Part000.READ_ERROR \/
  (read_status (mkCSlice 0 None Part000.READ_ERROR) = READ_SUCCESS /\
   ptr (mkCSlice 0 None Part000.READ_ERROR) = Some 0 /\
   0 <= len (mkCSlice 0 None Part000.READ_ERROR)).
Proof.
  apply (part000_pop_statuses page_h_QUEUE_SIZE 1 unterminated 0
           (mkCSlice 0 None Part000.READ_ERROR)
           (set_last_safe_write_idx unterminated 3)).
  - unfold page_h_QUEUE_SIZE. lia.
  - lia.
  - reflexivity.
Defined.

(** page.c's pop never returns READ_ERROR: whatever the page and the
    cursor, a pop that returns gives EMPTY or FINISHED with length 0 and a
    null pointer, or SUCCESS with a pointer to the cursor. *)
Theorem pagec_pop_never_reports_error (QUEUE_SIZE : Z) (fuel : nat)
  (p : RawQPage) (start_byte : Z) (cs : CSlice) (p' : RawQPage) :
  QUEUE_SIZE < 2 ^ 64 ->
  0 <= start_byte ->
  PageC.raw_qpage_pop QUEUE_SIZE fuel p start_byte = Ret (cs, p') ->
  read_status cs <> PageC.READ_ERROR /\
  (cs = mkCSlice 0 None READ_EMPTY \/
   cs = mkCSlice 0 None READ_FINISHED \/
   (read_status cs = READ_SUCCESS /\ ptr cs = Some start_byte /\ 0 <= len cs)).
Proof.
  intros HQ Hc H.
  destruct (pagec_pop_returned QUEUE_SIZE fuel p start_byte cs p' HQ Hc H)
    as (e & _ & [(_ & ->)|[(_ & _ & _ & ->)|(_ & _ & _ & k & Hk & _ & ->)]]);
    (split; [discriminate|]); auto.
  right; right. cbn [read_status ptr len]. repeat split; lia.
Qed.

Lemma pagec_pop_never_reports_error_witness :
  read_status (mkCSlice 3 (Some 0) READ_SUCCESS) <> PageC.READ_ERROR /\
  (mkCSlice 3 (Some 0) READ_SUCCESS = mkCSlice 0 None READ_EMPTY \/
   mkCSlice 3 (Some 0) READ_SUCCESS = mkCSlice 0 None READ_FINISHED \/
   (read_status (mkCSlice 3 (Some 0) READ_SUCCESS) = READ_SUCCESS /\
    ptr (mkCSlice 3 (Some 0) READ_SUCCESS) = Some 0 /\
    0 <= len (mkCSlice 3 (Some 0) READ_SUCCESS))).
Proof.
  apply (pagec_pop_never_reports_error page_c_QUEUE_SIZE 1 unterminated 0
           (mkCSlice 3 (Some 0) READ_SUCCESS)
           (set_last_safe_write_idx unterminated 3)).
  - unfold page_c_QUEUE_SIZE. lia.
  - lia.
  - reflexivity.
Defined.

(** A scan that finds no terminator.  On a page with no writer in flight,
    at a cursor the cached safe end does not cover and below the write
    index, when the write index is inside the arena, no byte from the
    cursor up to and including the write index is 0xFF and the byte at the
    cursor is not 0xFD: part_000's pop returns READ_ERROR with length 0 and
    a null pointer; page.c's pop returns SUCCESS with the length
    [write index - cursor] and a pointer to the cursor. *)
Theorem pop_without_terminator (QUEUE_SIZE : Z) (fuel : nat) (p : RawQPage)
  (start_byte : Z) :
  0 < QUEUE_SIZE < 2 ^ 64 ->
  quiescent p ->
  last_safe_write_idx p <= start_byte ->
  0 <= start_byte < write_idx_lock p ->
  write_idx_lock p < QUEUE_SIZE ->
  buf p start_byte <> xfd ->
  (forall j, start_byte <= j <= write_idx_lock p ->
             buf p j <> VALUE_TERM_BYTE) ->
  Part000.raw_qpage_pop QUEUE_SIZE (S fuel) p start_byte
  = Ret (mkCSlice 0 None Part000.READ_ERROR,
         set_last_safe_write_idx p (write_idx_lock p)) /\
  PageC.raw_qpage_pop QUEUE_SIZE (S fuel) p start_byte
  = Ret (mkCSlice (write_idx_lock p - start_byte) (Some start_byte)
           READ_SUCCESS,
         set_last_safe_write_idx p (write_idx_lock p)).
Proof.
  intros HQ Hq Hsafe Hc Hin Hfd Hno. split.
  - apply part000_pop_error with (E := write_idx_lock p);
      try assumption; try (rewrite size_t_modulus_eq; lia); try lia.
    + rewrite part000_get_idx_refresh by assumption. now rewrite clamp_le by lia.
    + intros j Hj. apply Hno. lia.
    + apply Hno. lia.
  - apply pagec_pop_falls_through with (E := write_idx_lock p);
      try assumption; try (rewrite size_t_modulus_eq; lia); try lia.
    + rewrite pagec_get_idx_refresh by assumption. now rewrite clamp_le by lia.
    + intros j Hj. apply Hno. lia.
    + apply Hno. lia.
Qed.

Lemma pop_without_terminator_witness :
  Part000.raw_qpage_pop page_h_QUEUE_SIZE 1 unterminated 0
  = Ret (mkCSlice 0 None Part000.READ_ERROR,
         set_last_safe_write_idx unterminated (write_idx_lock unterminated)) /\
  PageC.raw_qpage_pop page_h_QUEUE_SIZE 1 unterminated 0
  = Ret (mkCSlice (write_idx_lock unterminated - 0) (Some 0) READ_SUCCESS,
         set_last_safe_write_idx unterminated (write_idx_lock unterminated)).
Proof.
  apply (pop_without_terminator page_h_QUEUE_SIZE O unterminated 0).
  - unfold page_h_QUEUE_SIZE. lia.
  - apply quiescent_small. cbn [unterminated write_idx_lock]. lia.
  - cbn [unterminated last_safe_write_idx]. lia.
  - cbn [unterminated write_idx_lock]. lia.
  - unfold page_h_QUEUE_SIZE. cbn [unterminated write_idx_lock]. lia.
  - discriminate.
  - cbn [unterminated write_idx_lock]. intros j Hj.
    assert (Hc : j = 0 \/ j = 1 \/ j = 2 \/ j = 3) by lia.
    destruct Hc as [ -> | [ -> | [ -> | -> ] ] ]; discriminate.
Defined.

(** A writer in flight and the reader (in a run where the state word does
    not change).  With a nonzero writer count, at a cursor the cached safe
    end does not cover: part_000's [_get_write_idx_spin] and pop never
    leave the spin loop, however many iterations they get; page.c's
    [_get_write_idx_spin] leaves at its first load, caches the whole state
    word, writer count included, as the safe end, and returns
    [QUEUE_SIZE]. *)
Theorem reader_with_writer_in_flight (QUEUE_SIZE : Z) (p : RawQPage)
  (start_byte : Z) (fuel : nat) :
  0 < QUEUE_SIZE < 2 ^ 56 ->
  size_t_range (write_idx_lock p) ->
  writer_count (write_idx_lock p) <> 0 ->
  last_safe_write_idx p <= start_byte ->
  Part000._get_write_idx_spin QUEUE_SIZE fuel p start_byte = Spinning /\
  Part000.raw_qpage_pop QUEUE_SIZE fuel p start_byte = Spinning /\
  PageC._get_write_idx_spin QUEUE_SIZE (S fuel) p start_byte
  = Ret (QUEUE_SIZE, set_last_safe_write_idx p (write_idx_lock p)) /\
  write_index (write_idx_lock p) < write_idx_lock p.
Proof.
  intros HQ Hr Hw Hmiss.
  assert (Hspin : Part000._get_write_idx_spin QUEUE_SIZE fuel p start_byte
                  = Spinning).
  { unfold Part000._get_write_idx_spin.
    rewrite Zleb_true by exact Hmiss.
    now rewrite part000_spin_in_flight by assumption. }
  assert (Hbig : 2 ^ 56 <= write_idx_lock p).
  { destruct (Z_lt_le_dec (write_idx_lock p) (2 ^ 56)) as [Hlt|]; [|lia].
    exfalso. apply Hw. apply writer_count_zero; [apply Hr | exact Hlt]. }
  split; [exact Hspin|]. split; [|split].
  - unfold Part000.raw_qpage_pop. now rewrite Hspin.
  - rewrite pagec_get_idx_refresh by exact Hmiss.
    now rewrite clamp_gt by lia.
  - pose proof (write_index_range (write_idx_lock p)). lia.
Qed.

Lemma reader_with_writer_in_flight_witness :
  Part000._get_write_idx_spin page_h_QUEUE_SIZE 5 writer_in_flight 0
  = Spinning /\
  Part000.raw_qpage_pop page_h_QUEUE_SIZE 5 writer_in_flight 0 = Spinning /\
  PageC._get_write_idx_spin page_h_QUEUE_SIZE 6 writer_in_flight 0
  = Ret (page_h_QUEUE_SIZE,
         set_last_safe_write_idx writer_in_flight
           (write_idx_lock writer_in_flight)) /\
  write_index (write_idx_lock writer_in_flight)
  < write_idx_lock writer_in_flight.
Proof.
  apply (reader_with_writer_in_flight page_h_QUEUE_SIZE writer_in_flight 0 5).
  - unfold page_h_QUEUE_SIZE. lia.
  - unfold size_t_range. rewrite size_t_modulus_eq.
    change (write_idx_lock writer_in_flight) with (2 ^ 56 + 4). lia.
  - change (writer_count (write_idx_lock writer_in_flight)) with 1. lia.
  - cbn [writer_in_flight last_safe_write_idx]. lia.
Defined.

(** Sealing.  On a page with no writer in flight whose safe end is not
    ahead of the write index, a push whose reservation does not fit (and
    keeps the write index below [2 ^ 56]) returns PAGE_FULL, and the pop at
    the start of that reservation returns FINISHED: in part_000 whenever
    the start is an arena offset, in page.c whenever it is an offset other
    than the last, [QUEUE_SIZE - 1]. *)
Theorem full_push_seals_the_page (QUEUE_SIZE : Z) (p : RawQPage)
  (msg : list byte) (len : Z) (fuel : nat) :
  0 < QUEUE_SIZE < 2 ^ 31 ->
  quiescent p ->
  last_safe_write_idx p <= write_idx_lock p ->
  0 <= len ->
  QUEUE_SIZE - 1 <= write_idx_lock p + len ->
  write_idx_lock p + len + 1 < QUEUE_MAGIC_NUM ->
  (write_idx_lock p <= QUEUE_SIZE - 1 ->
   exists p1 p2,
     Part000.raw_qpage_push QUEUE_SIZE p msg len = Ret (WRITE_PAGE_FULL, p1) /\
     buf p1 (write_idx_lock p) = xfd /\
     Part000.raw_qpage_pop QUEUE_SIZE (S fuel) p1 (write_idx_lock p)
     = Ret (mkCSlice 0 None READ_FINISHED, p2)) /\
  (write_idx_lock p < QUEUE_SIZE - 1 ->
   exists p1 p2,
     PageC.raw_qpage_push QUEUE_SIZE p msg len = Ret (WRITE_PAGE_FULL, p1) /\
     buf p1 (write_idx_lock p) = xfd /\
     PageC.raw_qpage_pop QUEUE_SIZE (S fuel) p1 (write_idx_lock p)
     = Ret (mkCSlice 0 None READ_FINISHED, p2)).
Proof.
  intros HQ Hq Hsafe Hlen Hfull Hb. rewrite QUEUE_MAGIC_NUM_eq in Hb.
  pose proof (quiescent_bound p Hq) as Hs.
  pose proof (quiescent_write_index p Hq) as Hwi.
  assert (Hw : wrap (write_index (write_idx_lock p) + len) >= QUEUE_SIZE - 1)
    by (rewrite Hwi, wrap_id; lia).
  assert (Hs1 : write_idx_lock (abandoned true p len)
                = write_idx_lock p + len + 1)
    by (cbn [abandoned write_idx_lock]; apply wrap_id; lia).
  assert (Hq1 : quiescent (abandoned true p len))
    by (apply quiescent_small; rewrite Hs1; lia).
  assert (Hfd : buf (abandoned true p len) (write_idx_lock p) = xfd).
  { cbn [abandoned buf]. rewrite Hwi. apply upd_same. }
  split; intros Hstart;
    exists (abandoned true p len),
      (set_last_safe_write_idx (abandoned true p len)
         (write_idx_lock (abandoned true p len)));
    (split; [|split; [exact Hfd|]]).
  - rewrite part000_push_full by (try exact Hw; lia).
    now rewrite Hwi, Zleb_true by lia.
  - apply part000_pop_finished with (E := QUEUE_SIZE); try lia.
    + rewrite part000_get_idx_refresh
        by (try exact Hq1; cbn [abandoned last_safe_write_idx]; lia).
      rewrite Hs1, clamp_min. now rewrite Z.min_l by lia.
    + exact Hfd.
  - rewrite pagec_push_full by (try exact Hw; lia).
    now rewrite Hwi, Zltb_true by lia.
  - apply pagec_pop_finished with (E := QUEUE_SIZE); try lia.
    + rewrite pagec_get_idx_refresh
        by (cbn [abandoned last_safe_write_idx]; lia).
      rewrite Hs1, clamp_min. now rewrite Z.min_l by lia.
    + exact Hfd.
Qed.

Lemma full_push_seals_the_page_witness :
  (write_idx_lock fresh_page <= page_h_QUEUE_SIZE - 1 ->
   exists p1 p2,
     Part000.raw_qpage_push page_h_QUEUE_SIZE fresh_page []
       page_h_QUEUE_SIZE = Ret (WRITE_PAGE_FULL, p1) /\
     buf p1 (write_idx_lock fresh_page) = xfd /\
     Part000.raw_qpage_pop page_h_QUEUE_SIZE 1 p1 (write_idx_lock fresh_page)
     = Ret (mkCSlice 0 None READ_FINISHED, p2)) /\
  (write_idx_lock fresh_page < page_h_QUEUE_SIZE - 1 ->
   exists p1 p2,
     PageC.raw_qpage_push page_h_QUEUE_SIZE fresh_page []
       page_h_QUEUE_SIZE = Ret (WRITE_PAGE_FULL, p1) /\
     buf p1 (write_idx_lock fresh_page) = xfd /\
     PageC.raw_qpage_pop page_h_QUEUE_SIZE 1 p1 (write_idx_lock fresh_page)
     = Ret (mkCSlice 0 None READ_FINISHED, p2)).
Proof.
  apply (full_push_seals_the_page page_h_QUEUE_SIZE fresh_page []
           page_h_QUEUE_SIZE O).
  - unfold page_h_QUEUE_SIZE. lia.
  - apply quiescent_small. cbn [fresh_page write_idx_lock]. lia.
  - cbn [fresh_page last_safe_write_idx write_idx_lock]. lia.
  - unfold page_h_QUEUE_SIZE. lia.
  - cbn [fresh_page write_idx_lock]. lia.
  - rewrite QUEUE_MAGIC_NUM_eq. unfold page_h_QUEUE_SIZE.
    cbn [fresh_page write_idx_lock]. lia.
Defined.

(** The last byte in page.c.  On a page with no writer in flight whose
    write index is [QUEUE_SIZE - 1], whose cached safe end is not ahead of
    the write index and whose last byte is neither 0xFD nor 0xFF (it is 0
    on a page only written by pushes), a push of page.c with a length
    [len >= 0] that keeps the write index below [2 ^ 56]
    ([write index + len + 1 < 2 ^ 56]) returns PAGE_FULL and leaves the
    whole arena as it was, and the pop at cursor [QUEUE_SIZE - 1] on the
    page it leaves does not return: its scan runs to [QUEUE_SIZE] and
    reads the byte after the array. *)
Theorem pagec_last_byte_is_never_stamped (QUEUE_SIZE : Z) (p : RawQPage)
  (msg : list byte) (len : Z) (fuel : nat) :
  0 < QUEUE_SIZE < 2 ^ 31 ->
  quiescent p ->
  last_safe_write_idx p <= write_idx_lock p ->
  write_idx_lock p = QUEUE_SIZE - 1 ->
  0 <= len ->
  write_idx_lock p + len + 1 < QUEUE_MAGIC_NUM ->
  buf p (QUEUE_SIZE - 1) <> xfd ->
  buf p (QUEUE_SIZE - 1) <> VALUE_TERM_BYTE ->
  exists p1,
    PageC.raw_qpage_push QUEUE_SIZE p msg len = Ret (WRITE_PAGE_FULL, p1) /\
    buf p1 = buf p /\
    PageC.raw_qpage_pop QUEUE_SIZE (S fuel) p1 (QUEUE_SIZE - 1) = Undefined.
Proof.
  intros HQ Hq Hsafe Hlast Hlen Hb Hfd Hterm. rewrite QUEUE_MAGIC_NUM_eq in Hb.
  pose proof (quiescent_write_index p Hq) as Hwi.
  assert (Hw : wrap (write_index (write_idx_lock p) + len) >= QUEUE_SIZE - 1)
    by (rewrite Hwi, wrap_id; lia).
  assert (Hs1 : write_idx_lock (abandoned false p len)
                = write_idx_lock p + len + 1)
    by (cbn [abandoned write_idx_lock]; apply wrap_id; lia).
  exists (abandoned false p len). split; [|split; [reflexivity|]].
  - rewrite pagec_push_full by (try exact Hw; lia).
    now rewrite Hwi, Zltb_false by lia.
  - unfold PageC.raw_qpage_pop.
    rewrite pagec_get_idx_refresh
      by (cbn [abandoned last_safe_write_idx]; lia).
    rewrite Hs1, clamp_min, Z.min_l by lia. cbn [bind].
    destruct (Z.eqb_spec QUEUE_SIZE (QUEUE_SIZE - 1)) as [E|_]; [lia|].
    rewrite buf_load_in by lia. cbn [bind set_last_safe_write_idx buf abandoned].
    rewrite eqb_neq by exact Hfd.
    replace (Z.to_nat (QUEUE_SIZE - (QUEUE_SIZE - 1))) with 1%nat by lia.
    cbn [PageC.scan]. rewrite Zltb_true by lia.
    rewrite buf_load_in by lia.
    cbn [bind set_last_safe_write_idx buf abandoned].
    rewrite eqb_neq by exact Hterm.
    replace (wrap (QUEUE_SIZE - 1 + 1)) with QUEUE_SIZE
      by (rewrite wrap_id; lia).
    cbn [bind]. now rewrite buf_load_out by lia.
Qed.

Lemma pagec_last_byte_is_never_stamped_witness :
  exists p1,
    PageC.raw_qpage_push page_c_QUEUE_SIZE (one_byte_left page_c_QUEUE_SIZE)
      abc 3 = Ret (WRITE_PAGE_FULL, p1) /\
    buf p1 = buf (one_byte_left page_c_QUEUE_SIZE) /\
    PageC.raw_qpage_pop page_c_QUEUE_SIZE 1 p1 (page_c_QUEUE_SIZE - 1)
    = Undefined.
Proof.
  apply (pagec_last_byte_is_never_stamped page_c_QUEUE_SIZE
           (one_byte_left page_c_QUEUE_SIZE) abc 3 O).
  - unfold page_c_QUEUE_SIZE. lia.
  - apply quiescent_small. unfold page_c_QUEUE_SIZE.
    cbn [one_byte_left write_idx_lock]. lia.
  - unfold page_c_QUEUE_SIZE. cbn [one_byte_left last_safe_write_idx write_idx_lock].
    lia.
  - reflexivity.
  - lia.
  - rewrite QUEUE_MAGIC_NUM_eq. unfold page_c_QUEUE_SIZE.
    cbn [one_byte_left write_idx_lock]. lia.
  - discriminate.
  - discriminate.
Defined.

(** The safe end a reader is handed.  On a page with no writer in flight
    whose cached safe end is at most its write index, the end
    [_get_write_idx_spin] returns, in either file and at any cursor, is at
    most [QUEUE_SIZE] and at most the write index, and the page it leaves
    has the same property. *)
Theorem safe_end_is_within_the_write_index (QUEUE_SIZE : Z) (fuel : nat)
  (p : RawQPage) (start_byte end_ : Z) (p' : RawQPage) :
  safe_end_bounded p ->
  Part000._get_write_idx_spin QUEUE_SIZE fuel p start_byte = Ret (end_, p') \/
  PageC._get_write_idx_spin QUEUE_SIZE fuel p start_byte = Ret (end_, p') ->
  end_ <= QUEUE_SIZE /\
  end_ <= write_idx_lock p /\
  safe_end_bounded p'.
Proof.
  intros [Hq Hsafe] H.
  pose proof (quiescent_write_index p Hq) as Hwi. rewrite Hwi in Hsafe.
  assert (Hc : (p' = set_last_safe_write_idx p (write_idx_lock p) /\
                end_ = clamp QUEUE_SIZE (write_idx_lock p)) \/
               (p' = p /\ end_ = clamp QUEUE_SIZE (last_safe_write_idx p))).
  { destruct H as [H|H];
      [apply part000_get_idx_inv in H | apply pagec_get_idx_inv in H];
      [destruct H as [(_ & -> & _ & ->)|(_ & -> & ->)]
      |destruct H as [(_ & -> & ->)|(_ & -> & ->)]]; auto. }
  destruct Hc as [[-> ->]|[-> ->]]; rewrite clamp_min;
    (split; [lia|]); (split; [lia|]).
  - split; [exact Hq|]. cbn [set_last_safe_write_idx last_safe_write_idx
                              write_idx_lock]. lia.
  - split; [exact Hq|]. lia.
Qed.

Lemma safe_end_is_within_the_write_index_witness :
  4 <= page_h_QUEUE_SIZE /\
  4 <= write_idx_lock (committed fresh_page abc 3) /\
  safe_end_bounded (set_last_safe_write_idx (committed fresh_page abc 3) 4).
Proof.
  apply (safe_end_is_within_the_write_index page_h_QUEUE_SIZE 1
           (committed fresh_page abc 3) 0 4).
  - split; [apply quiescent_small|];
      change (write_idx_lock (committed fresh_page abc 3)) with 4;
      [lia | cbn [committed last_safe_write_idx fresh_page]].
    change (write_index 4) with 4. lia.
  - left. reflexivity.
Defined.






(** ** The length-prefixed framing: [raw_qpage_push_fast_read] and
    [raw_qpage_pop_fast_read] *)

Lemma Z_of_byte_of_Z x : Z_of_byte (byte_of_Z x) = x mod 256.
Proof.
  pose proof (Z.mod_pos_bound x 256 ltac:(lia)) as Hm.
  unfold byte_of_Z, Z_of_byte.
  destruct (Byte.of_N (Z.to_N (x mod 256))) as [b|] eqn:E.
  - apply Byte.to_of_N in E. rewrite E. apply Z2N.id. lia.
  - apply Byte.of_N_None_iff in E. lia.
Qed.

Lemma Z_of_byte_range b : 0 <= Z_of_byte b < 256.
Proof.
  unfold Z_of_byte. pose proof (Byte.to_N_bounded b). lia.
Qed.

Lemma le_value_le_bytes n : forall x,
  le_value (le_bytes n x) = x mod 256 ^ Z.of_nat n.
Proof.
  induction n as [|n IH]; intros x; cbn [le_bytes le_value].
  - now rewrite Z.mod_1_r.
  - rewrite Z_of_byte_of_Z, IH.
    rewrite Nat2Z.inj_succ, Z.pow_succ_r by lia.
    rewrite Z.rem_mul_r by lia. reflexivity.
Qed.

Lemma le_value_nonneg bs : 0 <= le_value bs.
Proof.
  induction bs as [|b bs IH]; cbn [le_value]; [lia|].
  pose proof (Z_of_byte_range b). lia.
Qed.

Lemma length_le_bytes n : forall x, length (le_bytes n x) = n.
Proof.
  induction n as [|n IH]; intros x; cbn [le_bytes length];
    [reflexivity | now rewrite IH].
Qed.

Lemma size_t_round_trip x :
  0 <= x < 2 ^ 64 ->
  le_value (le_bytes (Z.to_nat sizeof_size_t) x) = x.
Proof.
  intros Hx. rewrite le_value_le_bytes.
  change (256 ^ Z.of_nat (Z.to_nat sizeof_size_t)) with (2 ^ 64).
  now apply Z.mod_small.
Qed.

Lemma reserve_release_fast_read s len :
  wrap (wrap (s + wrap (wrap (wrap (QUEUE_MAGIC_NUM + sizeof_size_t) + len) + 1))
        - QUEUE_MAGIC_NUM)
  = wrap (s + len + sizeof_size_t + 1).
Proof.
  unfold wrap, sizeof_size_t. rewrite size_t_modulus_eq, QUEUE_MAGIC_NUM_eq.
  Z.div_mod_to_equations. lia.
Qed.

Ltac fast_read_push_fits_script s :=
  open_page; fold (write_index s) in *;
  rewrite (wrap_id (write_index s + _)) by lia;
  rewrite Zgeb_false by lia;
  rewrite length_le_bytes;
  change (Z.of_nat (Z.to_nat sizeof_size_t)) with sizeof_size_t;
  rewrite (Zleb_true sizeof_size_t sizeof_size_t) by lia;
  rewrite (Zleb_true 0 (write_index s)) by lia;
  rewrite (Zleb_true (write_index s + sizeof_size_t)) by (unfold sizeof_size_t; lia);
  cbn [andb];
  rewrite (wrap_id (write_index s + sizeof_size_t)) by (unfold sizeof_size_t; lia);
  rewrite (Zleb_true _ (Z.of_nat _)) by lia;
  rewrite (Zleb_true 0 (write_index s + sizeof_size_t)) by (unfold sizeof_size_t; lia);
  rewrite (Zleb_true (write_index s + sizeof_size_t + _)) by (unfold sizeof_size_t; lia);
  cbn [andb];
  rewrite (wrap_id (write_index s + sizeof_size_t + _)) by (unfold sizeof_size_t; lia);
  rewrite (Zleb_true 0 (write_index s + sizeof_size_t + _)) by (unfold sizeof_size_t; lia);
  rewrite (Zltb_true (write_index s + sizeof_size_t + _)) by (unfold sizeof_size_t; lia);
  cbn [andb];
  rewrite reserve_release_fast_read;
  rewrite <- (length_le_bytes (Z.to_nat sizeof_size_t)) at 1;
  rewrite firstn_all; reflexivity.

Lemma part000_push_fast_read_fits QS p msg n :
  QS <= 2 ^ 64 ->
  0 <= n <= Z.of_nat (length msg) ->
  write_index (write_idx_lock p) + n + sizeof_size_t + 1 <= QS ->
  Part000.raw_qpage_push_fast_read QS p msg n
  = Ret (to_int (wrap (wrap (n + sizeof_size_t) + 1)),
         committed_fast_read p msg n).
Proof.
  intros HQ Hn Hfit. pose proof (write_index_range (write_idx_lock p)) as Hs.
  unfold sizeof_size_t in Hfit.
  unfold Part000.raw_qpage_push_fast_read, committed_fast_read.
  destruct p as [i s e b]. fast_read_push_fits_script s.
Qed.

Lemma pagec_push_fast_read_fits QS p msg n :
  QS <= 2 ^ 64 ->
  0 <= n <= Z.of_nat (length msg) ->
  write_index (write_idx_lock p) + n + sizeof_size_t + 1 <= QS ->
  PageC.raw_qpage_push_fast_read QS p msg n
  = Ret (to_int (wrap (wrap (n + sizeof_size_t) + 1)),
         committed_fast_read p msg n).
Proof.
  intros HQ Hn Hfit. pose proof (write_index_range (write_idx_lock p)) as Hs.
  unfold sizeof_size_t in Hfit.
  unfold PageC.raw_qpage_push_fast_read, committed_fast_read.
  destruct p as [i s e b]. fast_read_push_fits_script s.
Qed.

Lemma committed_fast_read_length_word p msg n :
  0 <= n <= Z.of_nat (length msg) ->
  read_bytes (buf (committed_fast_read p msg n))
    (write_index (write_idx_lock p)) (Z.to_nat sizeof_size_t)
  = le_bytes (Z.to_nat sizeof_size_t) n.
Proof.
  intros Hn. cbn [committed_fast_read buf].
  rewrite (read_bytes_ext (Z.to_nat sizeof_size_t) _
             (write_bytes (buf p) (write_index (write_idx_lock p))
                (le_bytes (Z.to_nat sizeof_size_t) n))).
  - pose proof (read_write_bytes (le_bytes (Z.to_nat sizeof_size_t) n) (buf p)
                  (write_index (write_idx_lock p))) as R.
    now rewrite length_le_bytes in R.
  - intros j Hj. change (Z.of_nat (Z.to_nat sizeof_size_t)) with 8 in Hj.
    unfold sizeof_size_t.
    rewrite upd_other by lia.
    apply write_bytes_outside. lia.
Qed.

Lemma committed_fast_read_body p msg n :
  0 <= n <= Z.of_nat (length msg) ->
  read_bytes (buf (committed_fast_read p msg n))
    (write_index (write_idx_lock p) + sizeof_size_t) (Z.to_nat n)
  = firstn (Z.to_nat n) msg.
Proof.
  intros Hn. cbn [committed_fast_read buf].
  assert (E : length (firstn (Z.to_nat n) msg) = Z.to_nat n)
    by (rewrite length_firstn; lia).
  rewrite (read_bytes_ext (Z.to_nat n) _
             (write_bytes
                (write_bytes (buf p) (write_index (write_idx_lock p))
                   (le_bytes (Z.to_nat sizeof_size_t) n))
                (write_index (write_idx_lock p) + sizeof_size_t)
                (firstn (Z.to_nat n) msg))).
  - pose proof (read_write_bytes (firstn (Z.to_nat n) msg)
                  (write_bytes (buf p) (write_index (write_idx_lock p))
                     (le_bytes (Z.to_nat sizeof_size_t) n))
                  (write_index (write_idx_lock p) + sizeof_size_t)) as R.
    now rewrite E in R.
  - intros j Hj. apply upd_other. lia.
Qed.

Lemma committed_fast_read_terminator p msg n :
  buf (committed_fast_read p msg n)
    (write_index (write_idx_lock p) + sizeof_size_t + n) = VALUE_TERM_BYTE.
Proof. cbn [committed_fast_read buf]. apply upd_same. Qed.

Lemma part000_fast_read_end QS fuel p c :
  exists p',
    Part000.raw_qpage_pop_fast_read_end QS (S fuel) p c
    = Ret (clamp QS (if last_safe_write_idx p <=? c
                     then write_idx_lock p else last_safe_write_idx p), p') /\
    buf p' = buf p /\ write_idx_lock p' = write_idx_lock p /\
    (p' = p \/ p' = set_last_safe_write_idx p (write_idx_lock p)).
Proof.
  unfold Part000.raw_qpage_pop_fast_read_end.
  destruct (last_safe_write_idx p <=? c).
  - cbn [Part000.fast_read_spin].
    rewrite part000_fast_read_spin_exit_true. cbn [bind].
    eexists. split; [reflexivity|]. repeat split. now right.
  - cbn [bind]. eexists. split; [reflexivity|]. repeat split. now left.
Qed.

Lemma pagec_fast_read_end QS fuel p c :
  exists p',
    PageC.raw_qpage_pop_fast_read_end QS (S fuel) p c
    = Ret (clamp QS (if last_safe_write_idx p <=? c
                     then write_idx_lock p else last_safe_write_idx p), p') /\
    buf p' = buf p /\ write_idx_lock p' = write_idx_lock p /\
    (p' = p \/ p' = set_last_safe_write_idx p (write_idx_lock p)).
Proof.
  unfold PageC.raw_qpage_pop_fast_read_end.
  destruct (last_safe_write_idx p <=? c).
  - cbn [PageC.spin]. rewrite pagec_spin_exit_true. cbn [bind].
    eexists. split; [reflexivity|]. repeat split. now right.
  - cbn [bind]. eexists. split; [reflexivity|]. repeat split. now left.
Qed.

Lemma pop_fast_read_slice QS uninit p q c :
  0 < QS < 2 ^ 31 ->
  0 <= c ->
  c + le_value (read_bytes (buf p) c (Z.to_nat sizeof_size_t)) + sizeof_size_t
  < QS ->
  buf q = buf p ->
  (let* n := load_size_t QS q c in
   let cs := mkCSlice n (Some (wrap (c + sizeof_size_t))) uninit in
   let* b := buf_load QS q (wrap (wrap (c + len cs) + sizeof_size_t)) in
   let cs := if negb (Byte.eqb b VALUE_TERM_BYTE)
             then mkCSlice 0 (ptr cs) (read_status cs) else cs in
   Ret (cs, q))
  = Ret (fast_read_slice p c uninit, q).
Proof.
  intros HQ Hc Hin Hq.
  pose proof (le_value_nonneg
                (read_bytes (buf p) c (Z.to_nat sizeof_size_t))) as Hn.
  unfold load_size_t, fast_read_slice. rewrite Hq.
  unfold sizeof_size_t in *.
  rewrite !Zleb_true by lia. cbn [andb bind len ptr read_status].
  rewrite (wrap_id (c + 8)) by lia.
  rewrite (wrap_id (c + _)) by lia.
  rewrite (wrap_id (c + _ + 8)) by lia.
  rewrite buf_load_in by lia. cbn [bind]. rewrite Hq.
  destruct (Byte.eqb _ VALUE_TERM_BYTE); reflexivity.
Qed.

Lemma part000_pop_fast_read_returns QS uninit fuel p c :
  0 < QS < 2 ^ 31 ->
  0 <= c ->
  c + le_value (read_bytes (buf p) c (Z.to_nat sizeof_size_t)) + sizeof_size_t
  < QS ->
  exists p',
    Part000.raw_qpage_pop_fast_read QS uninit (S fuel) p c
    = Ret (fast_read_slice p c uninit, p') /\
    buf p' = buf p /\ write_idx_lock p' = write_idx_lock p.
Proof.
  intros HQ Hc Hin.
  destruct (part000_fast_read_end QS fuel p c) as (p' & E & Hb & Hs & _).
  exists p'. repeat split; try assumption.
  unfold Part000.raw_qpage_pop_fast_read. rewrite E. cbn [bind].
  now apply pop_fast_read_slice.
Qed.

Lemma pagec_pop_fast_read_returns QS uninit fuel p c :
  0 < QS < 2 ^ 31 ->
  0 <= c ->
  c + le_value (read_bytes (buf p) c (Z.to_nat sizeof_size_t)) + sizeof_size_t
  < QS ->
  exists p',
    PageC.raw_qpage_pop_fast_read QS uninit (S fuel) p c
    = Ret (fast_read_slice p c uninit, p') /\
    buf p' = buf p /\ write_idx_lock p' = write_idx_lock p.
Proof.
  intros HQ Hc Hin.
  destruct (pagec_fast_read_end QS fuel p c) as (p' & E & Hb & Hs & _).
  exists p'. repeat split; try assumption.
  unfold PageC.raw_qpage_pop_fast_read. rewrite E. cbn [bind].
  now apply pop_fast_read_slice.
Qed.

(** What [raw_qpage_pop_fast_read] returns, in both files: whatever the
    state word and the cached safe end are (a writer may be in flight, the
    cursor may be at or past the write index), given one iteration of its
    loop it returns the slice read off the arena at the cursor: the stored
    length word, or 0 when the byte after the announced body is not 0xFF,
    with the pointer [cursor + 8], never null, and [read_status] never
    assigned.  It leaves arena and state word as they were. *)
Theorem pop_fast_read_reads_the_arena_only (QUEUE_SIZE : Z) (uninit : Z)
  (fuel : nat) (p : RawQPage) (start_byte : Z) :
  0 < QUEUE_SIZE < 2 ^ 31 ->
  0 <= start_byte ->
  start_byte
  + le_value (read_bytes (buf p) start_byte (Z.to_nat sizeof_size_t))
  + sizeof_size_t < QUEUE_SIZE ->
  exists p1 p2,
    Part000.raw_qpage_pop_fast_read QUEUE_SIZE uninit (S fuel) p start_byte
    = Ret (fast_read_slice p start_byte uninit, p1) /\
    PageC.raw_qpage_pop_fast_read QUEUE_SIZE uninit (S fuel) p start_byte
    = Ret (fast_read_slice p start_byte uninit, p2) /\
    read_status (fast_read_slice p start_byte uninit) = uninit /\
    ptr (fast_read_slice p start_byte uninit)
    = Some (start_byte + sizeof_size_t) /\
    buf p1 = buf p /\ write_idx_lock p1 = write_idx_lock p /\
    buf p2 = buf p /\ write_idx_lock p2 = write_idx_lock p.
Proof.
  intros HQ Hc Hin.
  destruct (part000_pop_fast_read_returns QUEUE_SIZE uninit fuel p start_byte
              HQ Hc Hin) as (p1 & E1 & Hb1 & Hs1).
  destruct (pagec_pop_fast_read_returns QUEUE_SIZE uninit fuel p start_byte
              HQ Hc Hin) as (p2 & E2 & Hb2 & Hs2).
  exists p1, p2.
  split; [exact E1 | split; [exact E2 |]].
  split; [reflexivity | split; [reflexivity |]].
  repeat split; assumption.
Qed.

Lemma pop_fast_read_reads_the_arena_only_witness :
  exists p1 p2,
    Part000.raw_qpage_pop_fast_read page_h_QUEUE_SIZE 7 1 writer_in_flight 0
    = Ret (fast_read_slice writer_in_flight 0 7, p1) /\
    PageC.raw_qpage_pop_fast_read page_h_QUEUE_SIZE 7 1 writer_in_flight 0
    = Ret (fast_read_slice writer_in_flight 0 7, p2) /\
    read_status (fast_read_slice writer_in_flight 0 7) = 7 /\
    ptr (fast_read_slice writer_in_flight 0 7) = Some (0 + sizeof_size_t) /\
    buf p1 = buf writer_in_flight /\
    write_idx_lock p1 = write_idx_lock writer_in_flight /\
    buf p2 = buf writer_in_flight /\
    write_idx_lock p2 = write_idx_lock writer_in_flight.
Proof.
  apply (pop_fast_read_reads_the_arena_only page_h_QUEUE_SIZE 7 O
           writer_in_flight 0).
  - unfold page_h_QUEUE_SIZE. lia.
  - lia.
  - reflexivity.
Defined.

(** Round trip of the length-prefixed framing, in both files and for every
    message, 0xFF and 0xFD bytes included: on any page where the
    [len + 9] bytes fit in the arena, the push returns [len + 9], and the
    pop at the old write index returns the length [len], the pointer
    [start + 8] and the bytes of the message. *)
Theorem fast_read_round_trip (QUEUE_SIZE : Z) (p : RawQPage) (m : list byte)
  (uninit : Z) (fuel : nat) :
  0 < QUEUE_SIZE < 2 ^ 31 ->
  write_index (write_idx_lock p) + Z.of_nat (length m) + sizeof_size_t + 1
  <= QUEUE_SIZE ->
  exists p1 p2 p3 cs,
    Part000.raw_qpage_push_fast_read QUEUE_SIZE p m (Z.of_nat (length m))
    = Ret (Z.of_nat (length m) + sizeof_size_t + 1, p1) /\
    PageC.raw_qpage_push_fast_read QUEUE_SIZE p m (Z.of_nat (length m))
    = Ret (Z.of_nat (length m) + sizeof_size_t + 1, p1) /\
    Part000.raw_qpage_pop_fast_read QUEUE_SIZE uninit (S fuel) p1
      (write_index (write_idx_lock p)) = Ret (cs, p2) /\
    PageC.raw_qpage_pop_fast_read QUEUE_SIZE uninit (S fuel) p1
      (write_index (write_idx_lock p)) = Ret (cs, p3) /\
    cs = mkCSlice (Z.of_nat (length m))
           (Some (write_index (write_idx_lock p) + sizeof_size_t)) uninit /\
    slice_bytes p2 cs = m /\
    slice_bytes p3 cs = m.
Proof.
  intros HQ Hfit.
  pose proof (write_index_range (write_idx_lock p)) as Hs.
  set (n := Z.of_nat (length m)) in *.
  set (s := write_index (write_idx_lock p)) in *.
  assert (Hn : 0 <= n <= Z.of_nat (length m)) by (unfold n; lia).
  unfold sizeof_size_t in Hfit.
  set (p1 := committed_fast_read p m n).
  assert (Hword : le_value (read_bytes (buf p1) s (Z.to_nat sizeof_size_t)) = n).
  { unfold p1, s. rewrite committed_fast_read_length_word by exact Hn.
    apply size_t_round_trip. lia. }
  assert (Hslice : fast_read_slice p1 s uninit
                   = mkCSlice n (Some (s + sizeof_size_t)) uninit).
  { unfold fast_read_slice. rewrite Hword.
    replace (s + n + sizeof_size_t) with (s + sizeof_size_t + n) by lia.
    unfold p1, s. rewrite committed_fast_read_terminator.
    now rewrite eqb_same. }
  assert (Hin : s + le_value (read_bytes (buf p1) s (Z.to_nat sizeof_size_t))
                + sizeof_size_t < QUEUE_SIZE)
    by (rewrite Hword; unfold sizeof_size_t; lia).
  destruct (part000_pop_fast_read_returns QUEUE_SIZE uninit fuel p1 s HQ
              ltac:(lia) Hin) as (p2 & E2 & Hb2 & _).
  destruct (pagec_pop_fast_read_returns QUEUE_SIZE uninit fuel p1 s HQ
              ltac:(lia) Hin) as (p3 & E3 & Hb3 & _).
  rewrite Hslice in E2, E3.
  assert (Hbytes : read_bytes (buf p1) (s + sizeof_size_t) (Z.to_nat n) = m).
  { unfold p1, s. rewrite committed_fast_read_body by exact Hn.
    unfold n. now rewrite Nat2Z.id, firstn_all. }
  exists p1, p2, p3, (mkCSlice n (Some (s + sizeof_size_t)) uninit).
  split; [|split; [|split; [exact E2|split; [exact E3|split; [reflexivity|split]]]]].
  - unfold p1. rewrite part000_push_fast_read_fits
      by (try exact Hn; unfold sizeof_size_t; fold s; lia).
    unfold sizeof_size_t.
    now rewrite (wrap_id (n + 8)), wrap_id, to_int_small by lia.
  - unfold p1. rewrite pagec_push_fast_read_fits
      by (try exact Hn; unfold sizeof_size_t; fold s; lia).
    unfold sizeof_size_t.
    now rewrite (wrap_id (n + 8)), wrap_id, to_int_small by lia.
  - unfold slice_bytes. cbn [ptr len]. rewrite Hb2. exact Hbytes.
  - unfold slice_bytes. cbn [ptr len]. rewrite Hb3. exact Hbytes.
Qed.

Lemma fast_read_round_trip_witness :
  exists p1 p2 p3 cs,
    Part000.raw_qpage_push_fast_read page_h_QUEUE_SIZE fresh_page [xfd; xff]
      (Z.of_nat (length [xfd; xff]))
    = Ret (Z.of_nat (length [xfd; xff]) + sizeof_size_t + 1, p1) /\
    PageC.raw_qpage_push_fast_read page_h_QUEUE_SIZE fresh_page [xfd; xff]
      (Z.of_nat (length [xfd; xff]))
    = Ret (Z.of_nat (length [xfd; xff]) + sizeof_size_t + 1, p1) /\
    Part000.raw_qpage_pop_fast_read page_h_QUEUE_SIZE 7 1 p1
      (write_index (write_idx_lock fresh_page)) = Ret (cs, p2) /\
    PageC.raw_qpage_pop_fast_read page_h_QUEUE_SIZE 7 1 p1
      (write_index (write_idx_lock fresh_page)) = Ret (cs, p3) /\
    cs = mkCSlice (Z.of_nat (length [xfd; xff]))
           (Some (write_index (write_idx_lock fresh_page) + sizeof_size_t)) 7 /\
    slice_bytes p2 cs = [xfd; xff] /\
    slice_bytes p3 cs = [xfd; xff].
Proof.
  apply (fast_read_round_trip page_h_QUEUE_SIZE fresh_page [xfd; xff] 7 O).
  - unfold page_h_QUEUE_SIZE. lia.
  - vm_compute. discriminate.
Defined.

(** Full page under the length-prefixed framing, in both files: when the
    old write index plus the length reaches [QUEUE_SIZE], the push gives the
    reservation up, returning [WRITE_PAGE_FULL] (0) in part_000 and
    [PAGE_FULL] (-10) in page.c.  Unlike [raw_qpage_push] it writes nothing,
    no 0xFD either; the writer count is back where it was and the write
    index stays advanced by [len + 9]. *)
Theorem push_fast_read_full_writes_nothing (QUEUE_SIZE : Z) (p : RawQPage)
  (msg : list byte) (n : Z) :
  size_t_range (write_idx_lock p) ->
  0 <= n ->
  QUEUE_SIZE <= write_index (write_idx_lock p) + n ->
  write_index (write_idx_lock p) + n + sizeof_size_t + 1 < QUEUE_MAGIC_NUM ->
  exists q,
    Part000.raw_qpage_push_fast_read QUEUE_SIZE p msg n
    = Ret (WRITE_PAGE_FULL, q) /\
    PageC.raw_qpage_push_fast_read QUEUE_SIZE p msg n
    = Ret (PageC.PAGE_FULL, q) /\
    buf q = buf p /\
    last_safe_write_idx q = last_safe_write_idx p /\
    writer_count (write_idx_lock q) = writer_count (write_idx_lock p) /\
    write_index (write_idx_lock q)
    = write_index (write_idx_lock p) + n + sizeof_size_t + 1.
Proof.
  intros Hr Hn Hfull Hno.
  pose proof (write_index_range (write_idx_lock p)) as Hs.
  destruct (advance_fields (write_idx_lock p) (n + sizeof_size_t) Hr
              ltac:(unfold sizeof_size_t; lia) ltac:(unfold sizeof_size_t in *; lia)) as (_ & Hi & Hc).
  exists (mkRawQPage (is_ready p)
            (wrap (write_idx_lock p + n + sizeof_size_t + 1))
            (last_safe_write_idx p) (buf p)).
  cbn [buf last_safe_write_idx write_idx_lock].
  replace (write_idx_lock p + n + sizeof_size_t + 1)
    with (write_idx_lock p + (n + sizeof_size_t) + 1) by lia.
  rewrite QUEUE_MAGIC_NUM_eq in Hno. unfold sizeof_size_t in Hno.
  repeat split; try assumption; try (rewrite Hi; lia).
  - unfold Part000.raw_qpage_push_fast_read. destruct p as [i s e b].
    open_page. fold (write_index s) in *.
    rewrite (wrap_id (write_index s + n)) by lia.
    rewrite Zgeb_true by lia.
    rewrite reserve_release_fast_read.
    replace (s + (n + sizeof_size_t) + 1) with (s + n + sizeof_size_t + 1)
      by lia.
    reflexivity.
  - unfold PageC.raw_qpage_push_fast_read. destruct p as [i s e b].
    open_page. fold (write_index s) in *.
    rewrite (wrap_id (write_index s + n)) by lia.
    rewrite Zgeb_true by lia.
    rewrite reserve_release_fast_read.
    replace (s + (n + sizeof_size_t) + 1) with (s + n + sizeof_size_t + 1)
      by lia.
    reflexivity.
Qed.

Lemma push_fast_read_full_writes_nothing_witness :
  exists q,
    Part000.raw_qpage_push_fast_read 16 fresh_page fourteen 16
    = Ret (WRITE_PAGE_FULL, q) /\
    PageC.raw_qpage_push_fast_read 16 fresh_page fourteen 16
    = Ret (PageC.PAGE_FULL, q) /\
    buf q = buf fresh_page /\
    last_safe_write_idx q = last_safe_write_idx fresh_page /\
    writer_count (write_idx_lock q) = writer_count (write_idx_lock fresh_page) /\
    write_index (write_idx_lock q)
    = write_index (write_idx_lock fresh_page) + 16 + sizeof_size_t + 1.
Proof.
  apply (push_fast_read_full_writes_nothing 16 fresh_page fourteen 16).
  - vm_compute. split; [discriminate | reflexivity].
  - lia.
  - vm_compute. discriminate.
  - reflexivity.
Defined.

(** The guard of [raw_qpage_push_fast_read] compares [start + len] with
    [QUEUE_SIZE] and leaves the eight bytes of the length word and the
    terminator out: in both files a message whose body would still end
    inside the arena, while its [len + 9] bytes do not fit, is written past
    the end of [buf]. *)
Theorem push_fast_read_overruns_the_arena (QUEUE_SIZE : Z) (p : RawQPage)
  (msg : list byte) (n : Z) :
  QUEUE_SIZE <= 2 ^ 31 ->
  0 <= n <= Z.of_nat (length msg) ->
  write_index (write_idx_lock p) + n < QUEUE_SIZE ->
  QUEUE_SIZE < write_index (write_idx_lock p) + n + sizeof_size_t + 1 ->
  Part000.raw_qpage_push_fast_read QUEUE_SIZE p msg n = Undefined /\
  PageC.raw_qpage_push_fast_read QUEUE_SIZE p msg n = Undefined.
Proof.
  intros HQ Hn Hin Hover.
  pose proof (write_index_range (write_idx_lock p)) as Hs.
  unfold sizeof_size_t in Hover.
  split.
  - unfold Part000.raw_qpage_push_fast_read. destruct p as [i s e b].
    open_page. fold (write_index s) in *.
    rewrite (wrap_id (write_index s + n)) by lia.
    rewrite Zgeb_false by lia.
    rewrite length_le_bytes.
    change (Z.of_nat (Z.to_nat sizeof_size_t)) with sizeof_size_t.
    unfold sizeof_size_t.
    rewrite (wrap_id (write_index s + 8)) by lia.
    destruct (Z_le_gt_dec (write_index s + 8) QUEUE_SIZE) as [H1|H1];
      [rewrite (Zleb_true (write_index s + 8)) by lia
      |rewrite (Zleb_false (write_index s + 8)) by lia;
       now rewrite andb_false_r].
    rewrite (Zleb_true 8 8), (Zleb_true 0 (write_index s)) by lia.
    cbn [andb].
    rewrite (wrap_id (write_index s + 8 + n)) by lia.
    destruct (Z_le_gt_dec (write_index s + 8 + n) QUEUE_SIZE) as [H2|H2];
      [rewrite (Zleb_true (write_index s + 8 + n)) by lia
      |rewrite (Zleb_false (write_index s + 8 + n)) by lia;
       now rewrite andb_false_r].
    rewrite (Zleb_true n), (Zleb_true 0 (write_index s + 8)) by lia.
    cbn [andb].
    rewrite (Zltb_false (write_index s + 8 + n)) by lia.
    now rewrite andb_false_r.
  - unfold PageC.raw_qpage_push_fast_read. destruct p as [i s e b].
    open_page. fold (write_index s) in *.
    rewrite (wrap_id (write_index s + n)) by lia.
    rewrite Zgeb_false by lia.
    rewrite length_le_bytes.
    change (Z.of_nat (Z.to_nat sizeof_size_t)) with sizeof_size_t.
    unfold sizeof_size_t.
    rewrite (wrap_id (write_index s + 8)) by lia.
    destruct (Z_le_gt_dec (write_index s + 8) QUEUE_SIZE) as [H1|H1];
      [rewrite (Zleb_true (write_index s + 8)) by lia
      |rewrite (Zleb_false (write_index s + 8)) by lia;
       now rewrite andb_false_r].
    rewrite (Zleb_true 8 8), (Zleb_true 0 (write_index s)) by lia.
    cbn [andb].
    rewrite (wrap_id (write_index s + 8 + n)) by lia.
    destruct (Z_le_gt_dec (write_index s + 8 + n) QUEUE_SIZE) as [H2|H2];
      [rewrite (Zleb_true (write_index s + 8 + n)) by lia
      |rewrite (Zleb_false (write_index s + 8 + n)) by lia;
       now rewrite andb_false_r].
    rewrite (Zleb_true n), (Zleb_true 0 (write_index s + 8)) by lia.
    cbn [andb].
    rewrite (Zltb_false (write_index s + 8 + n)) by lia.
    now rewrite andb_false_r.
Qed.

Lemma push_fast_read_overruns_the_arena_witness :
  Part000.raw_qpage_push_fast_read 16 fresh_page fourteen 14 = Undefined /\
  PageC.raw_qpage_push_fast_read 16 fresh_page fourteen 14 = Undefined.
Proof.
  apply (push_fast_read_overruns_the_arena 16 fresh_page fourteen 14).
  - lia.
  - vm_compute. split; discriminate.
  - reflexivity.
  - reflexivity.
Defined.
